(** * Pants: Kotlin tailor rule and the [pants_requirements] target generator

    A shallow embedding of
    - [src/python/pants/backend/kotlin/goals/tailor.py]
      ([classify_source_files], [find_putative_targets]) and
    - [src/python/pants/backend/plugin_development/pants_requirements.py]
      ([determine_version], [generate_from_pants_requirements]).

    Python [str] is [string]; a Python [set] of strings is a [gset string],
    iterated through [elements]; a Python [dict] is an association list in
    insertion order with pairwise distinct keys; a rule that awaits the engine
    is a small free monad over the single request it can make. *)

From Stdlib Require Import Ascii String.
From stdpp Require Import base decidable list sorting gmap strings pretty.

(** ** Path helpers of the Python standard library ([posixpath]) *)

Module posixpath.

Definition sep : ascii := "/"%char.

Definition is_sep (c : ascii) : bool := bool_decide (c = sep).

(** [p[:i], p[i:]] for [i = p.rfind(sep) + 1]: [None] when [p] holds no
    separator (then [i = 0], so the head is empty and the tail is [p]). *)
Fixpoint rcut (p : string) : option (string * string) :=
  match p with
  | "" => None
  | String c p' =>
      match rcut p' with
      | Some (h, t) => Some (String c h, t)
      | None => if is_sep c then Some (String c "", p') else None
      end
  end.

Definition raw_split (p : string) : string * string :=
  match rcut p with
  | Some ht => ht
  | None => ("", p)
  end.

(** [head == sep * len(head)] *)
Fixpoint all_sep (s : string) : bool :=
  match s with
  | "" => true
  | String c s' => is_sep c && all_sep s'
  end.

(** [sep not in s] *)
Fixpoint no_sep (s : string) : bool :=
  match s with
  | "" => true
  | String c s' => negb (is_sep c) && no_sep s'
  end.

(** [head.rstrip(sep)] *)
Fixpoint rstrip_sep (s : string) : string :=
  match s with
  | "" => ""
  | String c s' =>
      match rstrip_sep s' with
      | "" => if is_sep c then "" else String c ""
      | r => String c r
      end
  end.

(** [posixpath.split]:
<<
    i = p.rfind(sep) + 1
    head, tail = p[:i], p[i:]
    if head and head != sep*len(head):
        head = head.rstrip(sep)
    return head, tail
>> *)
Definition split (p : string) : string * string :=
  let '(head, tail) := raw_split p in
  (if all_sep head then head else rstrip_sep head, tail).

Definition startswith_sep (s : string) : bool :=
  match s with
  | String c _ => is_sep c
  | "" => false
  end.

Fixpoint endswith_sep (s : string) : bool :=
  match s with
  | "" => false
  | String c "" => is_sep c
  | String _ s' => endswith_sep s'
  end.

(** [posixpath.join(a, b)] for one component [b]:
<<
    if b.startswith(sep): path = b
    elif not path or path.endswith(sep): path += b
    else: path += sep + b
>> *)
Definition join (a b : string) : string :=
  if startswith_sep b then b
  else if bool_decide (a = "") || endswith_sep a then a +:+ b
  else a +:+ String sep b.

(** [posixpath.basename]: [p[i:]] for [i = p.rfind(sep) + 1]. *)
Definition basename (p : string) : string := (raw_split p).2.

(** A normalised path, as the engine resolves them, has no two separators in
    a row. *)
Fixpoint no_double_sep (p : string) : bool :=
  match p with
  | "" => true
  | String c p' =>
      negb (is_sep c && startswith_sep p') && no_double_sep p'
  end.

(** A path whose directory part loses nothing but its one final separator:
    the separator before the last segment is not doubled, unless the whole
    directory part is made of separators (as in ["/x"] or ["//x"]). *)
Definition canonical (p : string) : bool :=
  let '(head, _) := raw_split p in
  all_sep head || bool_decide (head = rstrip_sep head +:+ String sep "").

End posixpath.

(** ** The tailor rule for Kotlin ([kotlin/goals/tailor.py]) *)

(** Target types ([type[Target]]) are the keys of a classification; a target
    type is known by its alias.  [KotlinSourcesGeneratorTarget] is declared in
    [pants.backend.kotlin.target_types]. *)
Record target_type : Type := TargetType { alias : string }.

Definition KotlinSourcesGeneratorTarget : target_type :=
  TargetType "kotlin_sources".

Global Instance target_type_eq_dec : EqDecision target_type.
Proof. solve_decision. Defined.

(** A Python [dict] in insertion order: [items d] is the list itself. *)
Definition dict (K V : Type) : Type := list (K * V).

Definition keys {K V} (d : dict K V) : list K := d.*1.

(** [d.get(k)] *)
Fixpoint dict_get {K V} `{EqDecision K} (d : dict K V) (k : K) : option V :=
  match d with
  | [] => None
  | (k', v) :: d' => if decide (k' = k) then Some v else dict_get d' k
  end.

(** [ret[k].add(f)] on a [defaultdict(set)]: an absent key is appended with
    the fresh set [{f}], a present one keeps its place. *)
Fixpoint defaultdict_add (ret : dict string (gset string)) (k f : string)
  : dict string (gset string) :=
  match ret with
  | [] => [(k, {[ f ]})]
  | (k', s) :: ret' =>
      if decide (k' = k) then (k', s ∪ {[ f ]}) :: ret'
      else (k', s) :: defaultdict_add ret' k f
  end.

(** Modelled from the spec: [group_by_dir] of [pants.core.goals.tailor], which
    the sources import but do not contain.  "Directory key is the path with
    its final path segment removed; empty/root directory is a valid key": the
    directory and the basename of a path are the two halves of
    [posixpath.split], and the basenames met under one directory are collected
    in a set, one key per directory. *)
Definition group_by_dir_add (ret : dict string (gset string)) (path : string)
  : dict string (gset string) :=
  let '(dirname, filename) := posixpath.split path in
  defaultdict_add ret dirname filename.

Definition group_by_dir (paths : list string) : dict string (gset string) :=
  foldl group_by_dir_add [] paths.

(** Modelled from the spec: [PutativeTarget] of [pants.core.goals.tailor], not
    part of the sources: the "PutativeDeclaration" with its "declaration type,
    containing directory, declaration name (defaulted deterministically, e.g.
    from directory name, when unspecified), and the sorted list of triggering
    file basenames".  The name is a Python value that may be [None]. *)
Record PutativeTarget : Type := {
  type_alias : target_type;
  path : string;
  name : option string;
  triggering_sources : list string;
}.

(** Modelled from the spec: the classmethod [PutativeTarget.for_target_type],
    not part of the sources.  A declaration asked for with [name=None] is
    "defaulted deterministically ... from directory name": it takes the last
    segment of its directory, [os.path.basename(path)]. *)
Definition for_target_type (tgt_type : target_type) (path : string)
    (name : option string) (triggering_sources : list string)
  : PutativeTarget :=
  {| type_alias := tgt_type;
     path := path;
     name := Some (default (posixpath.basename path) name);
     triggering_sources := triggering_sources |}.

Global Instance PutativeTarget_eq_dec : EqDecision PutativeTarget.
Proof. solve_decision. Defined.

(** [sorted(xs)] on strings: Python compares [str] by code point, which is the
    byte-wise lexicographic order [String.le] on their UTF-8 encoding. *)
Definition sorted (xs : list string) : list string := merge_sort (≤)%string xs.

(** [classify_source_files]: one target type owns every file. *)
Definition classify_source_files (paths : list string)
  : dict target_type (gset string) :=
  let sources_files : gset string := list_to_set paths in
  [(KotlinSourcesGeneratorTarget, sources_files)].

(** The engine's values around the rule. *)
Record SearchPaths : Type := { search_dirs : list string }.

(** Modelled from the spec: [PathGlobs] as built by
    [req.search_paths.path_globs], not part of the sources: "glob pattern for
    extension X scoped to this search". *)
Record PathGlobs : Type := path_globs {
  scope : SearchPaths;
  filename_glob : string;
}.

Record Paths : Type := { files : list string; dirs : list string }.

Record PutativeKotlinTargetsRequest : Type := { search_paths : SearchPaths }.

(** The reconstructed paths [d/f] of a declaration, and of a sequence. *)
Definition trigger_paths (t : PutativeTarget) : list string :=
  posixpath.join (path t) <$> triggering_sources t.

Definition emitted_paths (ts : list PutativeTarget) : list string :=
  ts ≫= trigger_paths.

(** Line 43: the candidates no declaration owns yet. *)
Definition unowned_kotlin_files (all_kotlin_files : Paths)
    (all_owned_sources : list string) : gset string :=
  list_to_set (files all_kotlin_files) ∖ list_to_set all_owned_sources.

(** Lines 43 to 53 of the rule: the list [putative_targets] that the two
    loops build from the resolved paths. *)
Definition putative_targets (all_kotlin_files : Paths)
    (all_owned_sources : list string) : list PutativeTarget :=
  let unowned_kotlin_files :=
    unowned_kotlin_files all_kotlin_files all_owned_sources in
  let classified_unowned_kotlin_files :=
    classify_source_files (elements unowned_kotlin_files) in
  '(tgt_type, paths) ← classified_unowned_kotlin_files;
  '(dirname, filenames) ← group_by_dir (elements paths);
  [for_target_type tgt_type dirname None (sorted (elements filenames))].

(** The (declaration type, directory, filenames) groups the two loops of
    lines 47 and 48 run through, in their order. *)
Definition groups (all_kotlin_files : Paths) (all_owned_sources : list string)
  : list (target_type * string * gset string) :=
  '(tgt_type, paths) ←
     classify_source_files
       (elements (unowned_kotlin_files all_kotlin_files all_owned_sources));
  '(dirname, filenames) ← group_by_dir (elements paths);
  [(tgt_type, dirname, filenames)].

(** A rule is a coroutine that either returns or awaits the engine for
    [Get(Paths, PathGlobs, globs)] and goes on with the answer. *)
Inductive Rule (A : Type) : Type :=
  | Return (a : A)
  | Get (globs : PathGlobs) (k : Paths → Rule A).
Arguments Return {A} a.
Arguments Get {A} globs k.

(** The engine runs a rule against a path-resolution capability that answers
    with the paths or fails.  An exception raised at an [await] that no
    handler surrounds ends the coroutine with that exception.  The run also
    records the requests it issued, in order. *)
Fixpoint run {E A} (resolve : PathGlobs → E + Paths) (r : Rule A)
  : list PathGlobs * (E + A) :=
  match r with
  | Return a => ([], inr a)
  | Get globs k =>
      match resolve globs with
      | inl e => ([globs], inl e)
      | inr paths => let '(asked, res) := run resolve (k paths) in
                     (globs :: asked, res)
      end
  end.

Definition find_putative_targets (req : PutativeKotlinTargetsRequest)
    (all_owned_sources : list string) : Rule (list PutativeTarget) :=
  let all_kotlin_files_globs := path_globs (search_paths req) "*.kt" in
  Get all_kotlin_files_globs (λ all_kotlin_files,
    Return (putative_targets all_kotlin_files all_owned_sources)).

(** The declaration line 50 builds for one entry of [group_by_dir]. *)
Definition declare (tgt_type : target_type) (g : string * gset string)
  : PutativeTarget :=
  for_target_type tgt_type g.1 None (sorted (elements g.2)).

(** *** Sample inputs *)

Definition scenario : Paths :=
  {| files := ["a/Foo.kt"; "a/Bar.kt"; "b/Baz.kt"]; dirs := [] |}.

Definition doubled_separator : Paths :=
  {| files := ["a//Foo.kt"]; dirs := [] |}.

(** *** The properties of the scan, as predicates of its two inputs *)

Definition paths_canonical (paths : gset string) : Prop :=
  ∀ p, p ∈ paths → posixpath.canonical p = true.

(** Directory grouping: every reconstructed path [d/f] of a declaration is an
    unowned candidate; every unowned candidate is among the reconstructed
    paths of exactly one declaration of its type; and no two declarations
    share their type and directory. *)
Definition directory_grouping_correct (all_kotlin_files : Paths)
    (all_owned_sources : list string) : Prop :=
  let unowned := unowned_kotlin_files all_kotlin_files all_owned_sources in
  let emitted := putative_targets all_kotlin_files all_owned_sources in
  (∀ t f, t ∈ emitted → f ∈ triggering_sources t →
          posixpath.join (path t) f ∈ unowned) ∧
  (∀ tgt_type paths p,
      (tgt_type, paths) ∈ classify_source_files (elements unowned) →
      p ∈ paths →
      ∃ t, (t ∈ emitted ∧ type_alias t = tgt_type ∧ p ∈ trigger_paths t) ∧
           ∀ t', t' ∈ emitted ∧ type_alias t' = tgt_type ∧ p ∈ trigger_paths t' →
                 t' = t) ∧
  NoDup ((λ t, (type_alias t, path t)) <$> emitted).

(** Idempotent exclusion: once the reconstructed paths of a first scan are
    added to the owned paths, a second scan of the same candidates emits
    nothing. *)
Definition idempotent_exclusion (all_kotlin_files : Paths)
    (all_owned_sources : list string) : Prop :=
  putative_targets all_kotlin_files
    (all_owned_sources ++
     emitted_paths (putative_targets all_kotlin_files all_owned_sources)) = [].

(** No owned path is reconstructed from an emitted declaration. *)
Definition owned_never_emitted (all_kotlin_files : Paths)
    (all_owned_sources : list string) : Prop :=
  ∀ t p, t ∈ putative_targets all_kotlin_files all_owned_sources →
         p ∈ trigger_paths t → p ∉ all_owned_sources.

(** Contiguity by type: between two declarations of one type stands no
    declaration of another. *)
Definition contiguous_by_type (ts : list PutativeTarget) : Prop :=
  ∀ i j k a b c, i ≤ j → j ≤ k →
    ts !! i = Some a → ts !! j = Some b → ts !! k = Some c →
    type_alias a = type_alias c → type_alias b = type_alias a.

(** ** The [pants_requirements] generator
    ([plugin_development/pants_requirements.py]) *)

(** [packaging.version.Version], the type of [PANTS_SEMVER]. *)
Record Version : Type := {
  epoch : N;
  release : list N;
  pre : option (string * N);
  post : option N;
  dev : option N;
  local : option string;
}.

Definition major (v : Version) : N := default 0%N (release v !! 0%nat).
Definition minor (v : Version) : N := default 0%N (release v !! 1%nat).
Definition is_devrelease (v : Version) : bool := bool_decide (is_Some (dev v)).

(** [".".join(str(x) for x in xs)] *)
Fixpoint dotted (xs : list N) : string :=
  match xs with
  | [] => ""
  | [x] => pretty x
  | x :: xs' => pretty x +:+ "." +:+ dotted xs'
  end.

(** [str(version)] *)
Definition Version_str (v : Version) : string :=
  (if bool_decide (epoch v = 0%N) then "" else pretty (epoch v) +:+ "!")
  +:+ dotted (release v)
  +:+ from_option (λ '(l, n), l +:+ pretty n) "" (pre v)
  +:+ from_option (λ n, ".post" +:+ pretty n) "" (post v)
  +:+ from_option (λ n, ".dev" +:+ pretty n) "" (dev v)
  +:+ from_option (λ l, "+" +:+ l) "" (local v).

Definition determine_version (PANTS_SEMVER : Version) : string :=
  if is_devrelease PANTS_SEMVER
  then "==" +:+ Version_str PANTS_SEMVER
  else ">=" +:+ pretty (major PANTS_SEMVER) +:+ "."
            +:+ pretty (minor PANTS_SEMVER) +:+ ".0a0,"
       +:+ "<" +:+ pretty (major PANTS_SEMVER) +:+ "."
            +:+ pretty (minor PANTS_SEMVER + 1)%N.

(** Values of target fields. *)
Inductive field_value : Type :=
  | VNone
  | VBool (b : bool)
  | VStr (s : string)
  | VTuple (xs : list string).

Global Instance field_value_eq_dec : EqDecision field_value.
Proof. solve_decision. Defined.

Record Address : Type := {
  spec_path : string;
  target_name : string;
  generated_name : option string;
}.

Global Instance Address_eq_dec : EqDecision Address.
Proof. solve_decision. Defined.

Definition create_generated (a : Address) (generated : string) : Address :=
  {| spec_path := spec_path a; target_name := target_name a;
     generated_name := Some generated |}.

Record UnionMembership : Type := { union_rules : list (string * string) }.

(** The generator target: its address and the value of its [testutil] field
    (a [BoolField] whose default is [True]). *)
Record PantsRequirementsTargetGenerator : Type := {
  generator_address : Address;
  PantsRequirementsTestutilField : bool;
}.

Record GenerateFromPantsRequirementsRequest : Type := {
  generator : PantsRequirementsTargetGenerator;
  template_address : Address;
  template : gmap string field_value;
}.

Record PythonRequirementTarget : Type := {
  unhydrated_values : gmap string field_value;
  address : Address;
  union_membership : UnionMembership;
}.

Record GeneratedTargets : Type := {
  generated_by : PantsRequirementsTargetGenerator;
  generated : list PythonRequirementTarget;
}.

Section pants_requirements.

(** [pants.version.PANTS_SEMVER] and the aliases of the two requirement
    fields are constants declared outside the sources at hand. *)
Variable PANTS_SEMVER : Version.
Variables PythonRequirementsField_alias PythonRequirementModulesField_alias
  : string.

(** The dict display [{a: x, b: y, **template}]: later keys win, so the
    template's entries are laid over the two written out, and [b] over
    [a]. *)
Definition create_tgt (request : GenerateFromPantsRequirementsRequest)
    (union_membership : UnionMembership) (version : string)
    (dist module : string) : PythonRequirementTarget :=
  {| unhydrated_values :=
       template request ∪
       <[PythonRequirementModulesField_alias := VTuple [module]]>
         (<[PythonRequirementsField_alias := VTuple [dist +:+ version]]> ∅);
     address := create_generated (template_address request) dist;
     union_membership := union_membership |}.

Definition generate_from_pants_requirements
    (request : GenerateFromPantsRequirementsRequest)
    (union_membership : UnionMembership) : GeneratedTargets :=
  let generator := generator request in
  let version := determine_version PANTS_SEMVER in
  let result := [create_tgt request union_membership version
                   "pantsbuild.pants" "pants"] in
  let result :=
    if PantsRequirementsTestutilField generator
    then result ++ [create_tgt request union_membership version
                      "pantsbuild.pants.testutil" "pants.testutil"]
    else result in
  {| generated_by := generator; generated := result |}.

End pants_requirements.

(** *** Sample inputs *)

Definition sample_version : Version :=
  {| epoch := 0; release := [2; 15; 0]%N; pre := None; post := None;
     dev := Some 3%N; local := None |}.

Definition sample_union_membership : UnionMembership := {| union_rules := [] |}.

Definition sample_request : GenerateFromPantsRequirementsRequest :=
  {| generator :=
       {| generator_address :=
            {| spec_path := "plugins"; target_name := "pants";
               generated_name := None |};
          PantsRequirementsTestutilField := true |};
     template_address :=
       {| spec_path := "plugins"; target_name := "pants";
          generated_name := None |};
     template := {[ "resolve" := VStr "pants-plugins" ]} |}.

(** ** The mock formatters of the [fmt] tests ([rules/core/fmt_test.py]) *)

Module fmt_test.

(** The three concrete subclasses of [MockLanguageFormatters]. *)
Inductive MockLanguageFormatters : Type :=
  | PythonFormatters
  | JavaFormatters
  | InvalidFormatters.

Inductive exception : Type :=
  | IndexError.

Record FmtResult (Digest : Type) : Type := {
  digest : Digest;
  stdout_of : string;
  stderr : string;
}.
Arguments digest {Digest} _.
Arguments stdout_of {Digest} _.
Arguments stderr {Digest} _.

Record LanguageFmtResults (Digest : Type) : Type := {
  results : list (FmtResult Digest);
  combined_digest : Digest;
}.
Arguments results {Digest} _.
Arguments combined_digest {Digest} _.

Record TargetAdaptor (Address : Type) : Type := { address : Address }.
Arguments address {Address} _.

Record TargetAdaptorWithOrigin (Address Origin : Type) : Type := {
  adaptor : TargetAdaptor Address;
  origin : Origin;
}.
Arguments adaptor {Address Origin} _.
Arguments origin {Address Origin} _.

Section mocks.

(** Addresses, origins and digests are the engine's; an f-string prints an
    address through [str], and [EMPTY_DIRECTORY_DIGEST] is a constant of
    [pants.engine.fs]. *)
Context {Address Origin Digest : Type}.
Variable str : Address → string.
Variable EMPTY_DIRECTORY_DIGEST : Digest.

(** The static method [stdout] of each subclass. *)
Definition stdout (cls : MockLanguageFormatters) (address : Address) : string :=
  match cls with
  | PythonFormatters => "Python formatters: formatted " +:+ str address
  | JavaFormatters => "Java formatters: formatted " +:+ str address
  | InvalidFormatters =>
      "Invalid formatters: should not have formatted " +:+ str address +:+ "..."
  end.

(** The property [language_fmt_results]: indexing the empty tuple of
    adaptors raises [IndexError]. *)
Definition language_fmt_results (cls : MockLanguageFormatters)
    (adaptors_with_origins : list (TargetAdaptorWithOrigin Address Origin))
  : exception + LanguageFmtResults Digest :=
  match adaptors_with_origins with
  | [] => inl IndexError
  | first :: _ =>
      let address := address (adaptor first) in
      let digest := EMPTY_DIRECTORY_DIGEST in
      inr {| results := [ {| digest := digest;
                             stdout_of := stdout cls address;
                             stderr := "" |} ];
             combined_digest := digest |}
  end.

End mocks.

End fmt_test.

(** Decimal digits, the characters of [str(n)] for a natural number [n]. *)
Definition is_digit (c : ascii) : bool :=
  bool_decide (48 ≤ nat_of_ascii c ≤ 57)%nat.

Fixpoint all_digits (s : string) : bool :=
  match s with
  | "" => true
  | String c s' => is_digit c && all_digits s'
  end.

(** * Properties *)

(** ** [posixpath] on examples *)

Example split_nested : posixpath.split "a/b/Foo.kt" = ("a/b", "Foo.kt").
Proof. reflexivity. Qed.
Example split_top : posixpath.split "Foo.kt" = ("", "Foo.kt").
Proof. reflexivity. Qed.
Example split_root : posixpath.split "/Foo.kt" = ("/", "Foo.kt").
Proof. reflexivity. Qed.
Example split_doubled : posixpath.split "a//Foo.kt" = ("a", "Foo.kt").
Proof. reflexivity. Qed.
Example split_dir : posixpath.split "a/b/" = ("a/b", "").
Proof. reflexivity. Qed.
Example join_top : posixpath.join "" "Foo.kt" = "Foo.kt".
Proof. reflexivity. Qed.
Example join_nested : posixpath.join "a/b" "Foo.kt" = "a/b/Foo.kt".
Proof. reflexivity. Qed.
Example join_root : posixpath.join "/" "Foo.kt" = "/Foo.kt".
Proof. reflexivity. Qed.


(** ** [posixpath.split] and [posixpath.join] *)

Section posixpath_facts.
Import posixpath.

Lemma append_cons c (a b : string) : String c a +:+ b = String c (a +:+ b).
Proof. reflexivity. Qed.

Lemma no_sep_startswith s : no_sep s = true → startswith_sep s = false.
Proof. destruct s as [|c s]; simpl; [done|]. by destruct (is_sep c). Qed.

Lemma endswith_sep_cons c s :
  s ≠ "" → endswith_sep (String c s) = endswith_sep s.
Proof. by destruct s. Qed.

Lemma rcut_Some p h t :
  rcut p = Some (h, t) →
  p = h +:+ t ∧ endswith_sep h = true ∧ no_sep t = true.
Proof.
  revert h t. induction p as [|c p IH]; intros h t; simpl; [done|].
  destruct (rcut p) as [[h' t']|] eqn:Hcut.
  - intros [= <- <-]. destruct (IH h' t' eq_refl) as (-> & Hend & Hno).
    split_and!; [done| |done].
    rewrite endswith_sep_cons; [done|]. by intros ->.
  - destruct (is_sep c) eqn:Hc; [|done]. intros [= <- <-].
    split_and!; [done|done|].
    clear -Hcut. induction p as [|d p IH]; simpl in *; [done|].
    destruct (rcut p) as [[??]|]; [done|].
    destruct (is_sep d); [done|]. by rewrite IH.
Qed.

Lemma rcut_None p : rcut p = None → no_sep p = true.
Proof.
  induction p as [|c p IH]; simpl; [done|].
  destruct (rcut p) as [[??]|]; [done|].
  destruct (is_sep c); [done|]. intros _. by rewrite IH.
Qed.

Lemma raw_split_spec p h t :
  raw_split p = (h, t) →
  p = h +:+ t ∧ (h = "" ∨ endswith_sep h = true) ∧ no_sep t = true.
Proof.
  unfold raw_split. destruct (rcut p) as [[h' t']|] eqn:Hcut.
  - intros [= -> ->]. apply rcut_Some in Hcut as (? & ? & ?). auto.
  - intros [= <- <-]. apply rcut_None in Hcut. auto.
Qed.

Lemma rstrip_sep_empty s : rstrip_sep s = "" ↔ all_sep s = true.
Proof.
  induction s as [|c s IH]; simpl; [done|].
  destruct (rstrip_sep s) eqn:Hr.
  - destruct (is_sep c); simpl; [tauto|]. split; [done|discriminate].
  - split; [done|]. intros [_ Hs]%andb_true_iff. by apply IH in Hs.
Qed.

Lemma rstrip_sep_endswith s : endswith_sep (rstrip_sep s) = false.
Proof.
  induction s as [|c s IH]; simpl; [done|].
  destruct (rstrip_sep s) eqn:Hr.
  - by destruct (is_sep c) eqn:Hc; simpl.
  - by rewrite endswith_sep_cons.
Qed.

Lemma append_assoc_cons (a : string) c (b : string) :
  (a +:+ String c "") +:+ b = a +:+ String c b.
Proof.
  induction a as [|d a IH]; [done|].
  rewrite !append_cons. by f_equal.
Qed.

(** Joining the two halves of a canonical path gives the path back. *)
Lemma join_split p :
  canonical p = true →
  join (split p).1 (split p).2 = p.
Proof.
  unfold canonical, split.
  destruct (raw_split p) as [h t] eqn:Hraw.
  apply raw_split_spec in Hraw as (-> & Hh & Ht).
  apply no_sep_startswith in Ht. unfold join.
  destruct (all_sep h) eqn:Hall; simpl; rewrite Ht.
  - intros _. destruct Hh as [->| ->]; [done|]. by rewrite orb_true_r.
  - intros Hc%bool_decide_eq_true. rewrite rstrip_sep_endswith.
    rewrite bool_decide_eq_false_2.
    + simpl. by rewrite Hc at 2; rewrite append_assoc_cons.
    + intros Hr%rstrip_sep_empty. congruence.
Qed.

Lemma length_append (a b : string) :
  String.length (a +:+ b) = String.length a + String.length b.
Proof.
  induction a as [|c a IH]; [done|]. rewrite append_cons. simpl. by rewrite IH.
Qed.

Lemma append_inj_r (a b t : string) : a +:+ t = b +:+ t → a = b.
Proof.
  revert b. induction a as [|c a IH]; intros [|d b] H.
  - done.
  - apply (f_equal String.length) in H.
    rewrite !length_append in H. simpl in H. lia.
  - apply (f_equal String.length) in H.
    rewrite !length_append in H. simpl in H. lia.
  - rewrite !append_cons in H. injection H as -> H. f_equal. by apply IH.
Qed.

(** Only canonical paths are given back. *)
Lemma join_split_inv p :
  join (split p).1 (split p).2 = p → canonical p = true.
Proof.
  unfold canonical, split.
  destruct (raw_split p) as [h t] eqn:Hraw.
  apply raw_split_spec in Hraw as (-> & Hh & Ht).
  apply no_sep_startswith in Ht. unfold join.
  destruct (all_sep h) eqn:Hall; simpl; [done|]. rewrite Ht.
  rewrite rstrip_sep_endswith, bool_decide_eq_false_2.
  - simpl. rewrite <-append_assoc_cons. intros ->%append_inj_r.
    by apply bool_decide_eq_true.
  - intros Hr%rstrip_sep_empty. congruence.
Qed.

Lemma canonical_iff p :
  canonical p = true ↔ join (split p).1 (split p).2 = p.
Proof. split; [apply join_split | apply join_split_inv]. Qed.

End posixpath_facts.

(** ** Dictionaries and [group_by_dir] *)

Section dict_facts.
Context {K V : Type} `{EqDecision K}.
Implicit Types (d : dict K V) (k : K) (v : V).

Lemma dict_get_Some_elem d k v : dict_get d k = Some v → (k, v) ∈ d.
Proof.
  induction d as [|[k' v'] d IH]; simpl; [done|].
  case_decide as Hk; [intros [= ->]; subst; left|]. intros ?%IH. by right.
Qed.

Lemma dict_get_None d k : dict_get d k = None ↔ k ∉ keys d.
Proof.
  unfold keys. induction d as [|[k' v'] d IH]; simpl.
  - split; [intros _; apply not_elem_of_nil|done].
  - rewrite not_elem_of_cons. case_decide as Hk.
    + split; [done|]. by intros [? _].
    + rewrite IH. split; [done|]. by intros [_ ?].
Qed.

Lemma elem_dict_get d k v :
  NoDup (keys d) → (k, v) ∈ d → dict_get d k = Some v.
Proof.
  unfold keys. induction d as [|[k' v'] d IH]; simpl.
  - by intros _ ?%elem_of_nil.
  - intros [Hk' Hnd]%NoDup_cons [[= -> ->]|Hin]%elem_of_cons.
    + by rewrite decide_True.
    + rewrite decide_False; [by apply IH|].
      intros ->. apply Hk'. apply list_elem_of_fmap. by exists (k, v).
Qed.

Lemma elem_of_dict d k v :
  NoDup (keys d) → (k, v) ∈ d ↔ dict_get d k = Some v.
Proof. split; [by apply elem_dict_get | apply dict_get_Some_elem]. Qed.
End dict_facts.

Lemma defaultdict_add_get ret k f d :
  dict_get (defaultdict_add ret k f) d =
  if decide (d = k) then Some (default ∅ (dict_get ret k) ∪ {[ f ]})
  else dict_get ret d.
Proof.
  induction ret as [|[k' s] ret IH]; simpl.
  - rewrite union_empty_l_L. by repeat case_decide; simplify_eq.
  - destruct (decide (k' = k)) as [->|Hne]; simpl.
    + destruct (decide (k = d)) as [->|Hne']; [by rewrite !decide_True|].
      by rewrite decide_False.
    + rewrite IH. destruct (decide (k' = d)) as [->|Hne']; [|done].
      by rewrite decide_False.
Qed.


Lemma defaultdict_add_keys ret k f :
  keys (defaultdict_add ret k f) =
  if decide (k ∈ keys ret) then keys ret else keys ret ++ [k].
Proof.
  unfold keys. induction ret as [|[k' s] ret IH].
  - case_decide as Hin; [|done]. by apply elem_of_nil in Hin.
  - cbn [defaultdict_add]. destruct (decide (k' = k)) as [->|Hne].
    + clear IH. rewrite !fmap_cons. cbn [fst].
      case_decide as Hnin; [done|]. destruct Hnin. by left.
    + rewrite !fmap_cons, IH. clear IH. cbn [fst].
      destruct (decide (k ∈ ret.*1)) as [Hin|Hin];
        destruct (decide (k ∈ k' :: ret.*1)) as [Hin'|Hin']; try done.
      * destruct Hin'. by right.
      * apply elem_of_cons in Hin' as [->|?]; done.
Qed.

Lemma defaultdict_add_NoDup ret k f :
  NoDup (keys ret) → NoDup (keys (defaultdict_add ret k f)).
Proof.
  intros Hnd. rewrite defaultdict_add_keys. case_decide; [done|].
  apply NoDup_app. split_and!; [done| |].
  - intros x Hx ->%list_elem_of_singleton. done.
  - apply NoDup_singleton.
Qed.

Section group_by_dir_facts.
Implicit Types (ret : dict string (gset string)) (paths : list string).

Lemma group_fold_NoDup ret paths :
  NoDup (keys ret) → NoDup (keys (foldl group_by_dir_add ret paths)).
Proof.
  revert ret. induction paths as [|p paths IH]; intros ret Hnd; simpl; [done|].
  apply IH. unfold group_by_dir_add. destruct (posixpath.split p).
  by apply defaultdict_add_NoDup.
Qed.

Lemma group_fold_files ret paths d f :
  f ∈ default ∅ (dict_get (foldl group_by_dir_add ret paths) d) ↔
  f ∈ default ∅ (dict_get ret d) ∨ ∃ p, p ∈ paths ∧ posixpath.split p = (d, f).
Proof.
  revert ret. induction paths as [|p paths IH]; intros ret; simpl.
  - split; [auto|]. intros [?|(p & []%elem_of_nil & _)]. done.
  - rewrite IH. unfold group_by_dir_add.
    destruct (posixpath.split p) as [d' f'] eqn:Hp.
    rewrite defaultdict_add_get. setoid_rewrite elem_of_cons.
    destruct (decide (d = d')) as [->|Hne]; simpl.
    + rewrite elem_of_union, elem_of_singleton. split.
      * intros [[?| ->]|(q & ? & ?)]; eauto 6.
      * intros [?|(q & [->|?] & Hq)]; [auto| |eauto]. left; right. congruence.
    + split.
      * intros [?|(q & ? & ?)]; eauto 6.
      * intros [?|(q & [->|?] & Hq)]; [auto| |eauto]. congruence.
Qed.

Lemma group_fold_keys ret paths d :
  is_Some (dict_get (foldl group_by_dir_add ret paths) d) ↔
  is_Some (dict_get ret d) ∨ ∃ p, p ∈ paths ∧ (posixpath.split p).1 = d.
Proof.
  revert ret. induction paths as [|p paths IH]; intros ret; simpl.
  - split; [auto|]. intros [?|(p & []%elem_of_nil & _)]. done.
  - rewrite IH. unfold group_by_dir_add.
    destruct (posixpath.split p) as [d' f'] eqn:Hp.
    rewrite defaultdict_add_get. setoid_rewrite elem_of_cons.
    destruct (decide (d = d')) as [->|Hne]; simpl.
    + split; [|eauto]. intros _. right. exists p. rewrite Hp. auto.
    + split.
      * intros [?|(q & ? & ?)]; eauto 6.
      * intros [?|(q & [->|?] & Hq)]; [auto| |eauto]. rewrite Hp in Hq. done.
Qed.

Lemma group_fold_nonempty ret paths :
  (∀ d s, dict_get ret d = Some s → s ≠ ∅) →
  ∀ d s, dict_get (foldl group_by_dir_add ret paths) d = Some s → s ≠ ∅.
Proof.
  revert ret. induction paths as [|p paths IH]; intros ret Hne; simpl; [done|].
  apply IH. intros d s. unfold group_by_dir_add.
  destruct (posixpath.split p) as [d' f'].
  rewrite defaultdict_add_get. case_decide; [|by apply Hne].
  intros [= <-]. set_solver.
Qed.

(** One key per directory. *)
Lemma group_by_dir_NoDup paths : NoDup (keys (group_by_dir paths)).
Proof. apply group_fold_NoDup, NoDup_nil_2. Qed.

(** The basenames under a directory key are those of the paths that split
    to that directory, and there is at least one. *)
Lemma group_by_dir_elem paths d s :
  (d, s) ∈ group_by_dir paths →
  s ≠ ∅ ∧ ∀ f, f ∈ s ↔ ∃ p, p ∈ paths ∧ posixpath.split p = (d, f).
Proof.
  intros Hin%elem_dict_get; [|apply group_by_dir_NoDup]. split.
  - revert Hin. by apply group_fold_nonempty.
  - intros f. pose proof (group_fold_files [] paths d f) as Hf.
    fold (group_by_dir paths) in Hf. rewrite Hin in Hf. simpl in Hf.
    rewrite Hf. split; [|auto]. by intros [?%elem_of_empty|?].
Qed.

(** Every path has its directory among the keys. *)
Lemma group_by_dir_covers paths p :
  p ∈ paths →
  ∃ s, ((posixpath.split p).1, s) ∈ group_by_dir paths ∧
       (posixpath.split p).2 ∈ s.
Proof.
  intros Hp.
  destruct (group_fold_keys [] paths (posixpath.split p).1) as [_ [s Hs]];
    [eauto|].
  fold (group_by_dir paths) in Hs. exists s. split.
  - by apply dict_get_Some_elem.
  - pose proof (group_fold_files [] paths (posixpath.split p).1
                  (posixpath.split p).2) as Hf.
    fold (group_by_dir paths) in Hf. rewrite Hs in Hf. simpl in Hf.
    apply Hf. right. exists p. by destruct (posixpath.split p).
Qed.
End group_by_dir_facts.

(** ** [sorted] *)

Lemma sorted_Permutation xs : sorted xs ≡ₚ xs.
Proof. apply merge_sort_Permutation. Qed.

Lemma elem_of_sorted xs x : x ∈ sorted xs ↔ x ∈ xs.
Proof. by rewrite sorted_Permutation. Qed.

Lemma sorted_StronglySorted xs : StronglySorted (≤)%string (sorted xs).
Proof. apply StronglySorted_merge_sort; apply _. Qed.

Lemma sorted_NoDup xs : NoDup xs → NoDup (sorted xs).
Proof. by rewrite sorted_Permutation. Qed.

(** The sorted list is the only ordered arrangement of its elements. *)
Lemma sorted_unique xs ys :
  ys ≡ₚ xs → StronglySorted (≤)%string ys → ys = sorted xs.
Proof.
  intros Hp Hs. apply (StronglySorted_unique (≤)%string); [done| |].
  - apply sorted_StronglySorted.
  - by rewrite sorted_Permutation.
Qed.

(** ** The declarations of a scan *)

Lemma bind_pair_singleton {A B C} (g : A → B → C) (l : list (A * B)) :
  (l ≫= λ '(a, b), [g a b]) = (λ ab, g ab.1 ab.2) <$> l.
Proof.
  induction l as [|[a b] l IH]; [done|]. rewrite bind_cons, fmap_cons.
  by rewrite IH.
Qed.

Lemma putative_targets_eq F O :
  putative_targets F O =
  declare KotlinSourcesGeneratorTarget
    <$> group_by_dir (elements (unowned_kotlin_files F O)).
Proof.
  unfold putative_targets, classify_source_files.
  rewrite bind_singleton, list_to_set_elements_L.
  apply (bind_pair_singleton
           (λ d fs, for_target_type KotlinSourcesGeneratorTarget d None
                      (sorted (elements fs)))).
Qed.

Lemma groups_eq F O :
  groups F O =
  (λ g, (KotlinSourcesGeneratorTarget, g.1, g.2))
    <$> group_by_dir (elements (unowned_kotlin_files F O)).
Proof.
  unfold groups, classify_source_files.
  rewrite bind_singleton, list_to_set_elements_L.
  apply (bind_pair_singleton (λ d fs, (KotlinSourcesGeneratorTarget, d, fs))).
Qed.

Lemma elem_of_putative_targets F O t :
  t ∈ putative_targets F O ↔
  ∃ d fs, (d, fs) ∈ group_by_dir (elements (unowned_kotlin_files F O)) ∧
          t = for_target_type KotlinSourcesGeneratorTarget d None
                (sorted (elements fs)).
Proof.
  rewrite putative_targets_eq, list_elem_of_fmap. split.
  - intros ([d fs] & -> & Hin). by exists d, fs.
  - intros (d & fs & Hin & ->). by exists (d, fs).
Qed.

Lemma putative_targets_nil F O :
  unowned_kotlin_files F O = ∅ → putative_targets F O = [].
Proof. intros HU. by rewrite putative_targets_eq, HU, elements_empty. Qed.

Lemma elem_of_trigger_paths t p :
  p ∈ trigger_paths t ↔
  ∃ f, f ∈ triggering_sources t ∧ p = posixpath.join (path t) f.
Proof.
  unfold trigger_paths. rewrite list_elem_of_fmap. split.
  - intros (f & -> & Hf). eauto.
  - intros (f & Hf & ->). eauto.
Qed.

(** A basename listed by a declaration comes from an unowned candidate that
    splits into the declaration's directory and that basename. *)
Lemma trigger_origin F O t f :
  t ∈ putative_targets F O → f ∈ triggering_sources t →
  ∃ p, p ∈ unowned_kotlin_files F O ∧ posixpath.split p = (path t, f).
Proof.
  intros (d & fs & Hg & ->)%elem_of_putative_targets Hf. simpl in *.
  apply elem_of_sorted, elem_of_elements in Hf.
  apply group_by_dir_elem in Hg as [_ Hfs].
  apply Hfs in Hf as (p & Hp%elem_of_elements & Hsplit). eauto.
Qed.

Lemma trigger_in_unowned F O t f :
  paths_canonical (unowned_kotlin_files F O) →
  t ∈ putative_targets F O → f ∈ triggering_sources t →
  posixpath.join (path t) f ∈ unowned_kotlin_files F O.
Proof.
  intros Hc Ht Hf. destruct (trigger_origin F O t f Ht Hf) as (p & Hp & Hs).
  pose proof (join_split p (Hc p Hp)) as Hj. rewrite Hs in Hj. simpl in Hj.
  by rewrite Hj.
Qed.

(** An unowned candidate is declared under its own directory. *)
Lemma candidate_declared F O p :
  p ∈ unowned_kotlin_files F O →
  ∃ fs, ((posixpath.split p).1, fs)
          ∈ group_by_dir (elements (unowned_kotlin_files F O)) ∧
        (posixpath.split p).2
          ∈ triggering_sources
              (declare KotlinSourcesGeneratorTarget ((posixpath.split p).1, fs)) ∧
        declare KotlinSourcesGeneratorTarget ((posixpath.split p).1, fs)
          ∈ putative_targets F O.
Proof.
  intros Hp%elem_of_elements.
  destruct (group_by_dir_covers _ _ Hp) as (fs & Hg & Hf).
  exists fs. split_and!; [done|..].
  - simpl. by apply elem_of_sorted, elem_of_elements.
  - rewrite putative_targets_eq. apply list_elem_of_fmap. eauto.
Qed.

Lemma putative_targets_keys_NoDup F O :
  NoDup ((λ t, (type_alias t, path t)) <$> putative_targets F O).
Proof.
  rewrite putative_targets_eq, <-list_fmap_compose.
  change ((λ t, (type_alias t, path t)) ∘ declare KotlinSourcesGeneratorTarget)
    with (pair KotlinSourcesGeneratorTarget ∘ (fst : string * gset string → string)).
  rewrite list_fmap_compose. apply NoDup_fmap_2; [|apply group_by_dir_NoDup].
  by intros ?? [=].
Qed.

Lemma putative_targets_NoDup F O : NoDup (putative_targets F O).
Proof. eapply NoDup_fmap_1, putative_targets_keys_NoDup. Qed.

(** Two declarations of one scan that share their directory are the same. *)
Lemma putative_targets_path_inj F O t t' :
  t ∈ putative_targets F O → t' ∈ putative_targets F O →
  path t = path t' → t = t'.
Proof.
  intros (d & fs & Hg & ->)%elem_of_putative_targets
         (d' & fs' & Hg' & ->)%elem_of_putative_targets; simpl. intros <-.
  apply elem_dict_get in Hg, Hg'; try apply group_by_dir_NoDup. congruence.
Qed.

(** ** Normalised paths are canonical *)

Section normalised_paths.
Import posixpath.

Lemma no_double_sep_app_l (a b : string) :
  no_double_sep (a +:+ b) = true → no_double_sep a = true.
Proof.
  induction a as [|c a IH]; [done|]. rewrite append_cons. simpl.
  intros [Hc Hab]%andb_true_iff. rewrite (IH Hab), andb_true_r.
  destruct (is_sep c); [|done]. simpl in *.
  destruct a as [|d a]; [done|]. by rewrite append_cons in Hc.
Qed.

Lemma no_double_sep_head (h : string) :
  no_double_sep h = true → endswith_sep h = true →
  all_sep h = true ∨ h = rstrip_sep h +:+ String sep "".
Proof.
  induction h as [|c h IH]; [done|].
  destruct h as [|c' h'].
  { simpl. intros _ ->. by left. }
  intros Hnd Hend. rewrite endswith_sep_cons in Hend by done.
  change (no_double_sep (String c (String c' h')))
    with (negb (is_sep c && is_sep c') && no_double_sep (String c' h')) in Hnd.
  apply andb_true_iff in Hnd as [Hcc Hnd].
  destruct (IH Hnd Hend) as [Hall|Heq].
  - (* the rest is all separators, so it is one separator *)
    change (all_sep (String c' h')) with (is_sep c' && all_sep h') in Hall.
    apply andb_true_iff in Hall as [Hc' Hall].
    rewrite Hc', andb_true_r in Hcc. apply negb_true_iff in Hcc.
    assert (h' = "") as ->.
    { destruct h' as [|d h'']; [done|]. simpl in Hall, Hnd.
      apply andb_true_iff in Hall as [Hd _]. by rewrite Hc', Hd in Hnd. }
    right. apply bool_decide_eq_true in Hc' as ->. simpl.
    by rewrite Hcc.
  - right. change (rstrip_sep (String c (String c' h')))
      with (match rstrip_sep (String c' h') with
            | "" => if is_sep c then "" else String c ""
            | r => String c r
            end).
    destruct (rstrip_sep (String c' h')) as [|x r] eqn:Hr.
    + (* again the rest is one separator *)
      injection Heq as -> ->. apply negb_true_iff in Hcc.
      destruct (is_sep c); [|done]. by vm_compute in Hcc.
    + rewrite append_cons. by rewrite <-Heq.
Qed.

(** A path without two separators in a row is canonical. *)
Lemma no_double_sep_canonical p :
  no_double_sep p = true → canonical p = true.
Proof.
  intros Hnd. unfold canonical.
  destruct (raw_split p) as [h t] eqn:Hraw.
  apply raw_split_spec in Hraw as (-> & [-> | Hend] & _); [done|].
  apply no_double_sep_app_l in Hnd.
  destruct (no_double_sep_head h Hnd Hend) as [-> | Heq]; [done|].
  apply orb_true_iff. right. by apply bool_decide_eq_true.
Qed.

End normalised_paths.

(** The paths the engine resolves are normalised: their unowned candidates
    are canonical. *)
Lemma normalised_paths_canonical F O :
  Forall (λ p, posixpath.no_double_sep p = true) (files F) →
  paths_canonical (unowned_kotlin_files F O).
Proof.
  intros Hn p Hp. apply no_double_sep_canonical.
  unfold unowned_kotlin_files in Hp.
  apply elem_of_difference in Hp as [Hp%elem_of_list_to_set _].
  by apply (proj1 (Forall_forall _ _) Hn).
Qed.

(** ** Directory grouping (C1) *)

(** C1.  For every resolved candidate list and owned list, the paths being
    resolved by the engine, which returns them normalised, so that the
    unowned candidates are canonical paths (the separator before the last
    segment is not doubled; see [normalised_paths_canonical]): every path
    [d/f] reconstructed by joining the
    directory [d] of an emitted declaration with one of its triggers [f] is an
    unowned candidate; every unowned candidate is reconstructed from exactly
    one emitted declaration of its declaration type; and at most one
    declaration is emitted per (declaration type, directory) pair. *)
Theorem directory_grouping F O :
  paths_canonical (unowned_kotlin_files F O) →
  directory_grouping_correct F O.
Proof.
  intros Hc. unfold directory_grouping_correct. cbv zeta. split_and!.
  - intros t f. by apply trigger_in_unowned.
  - intros ty paths p [= -> ->]%list_elem_of_singleton Hp.
    rewrite list_to_set_elements_L in Hp.
    destruct (candidate_declared F O p Hp) as (fs & Hg & Hf & Ht).
    pose proof (join_split p (Hc p Hp)) as Hj.
    exists (declare KotlinSourcesGeneratorTarget ((posixpath.split p).1, fs)).
    split.
    + split_and!; [done|done|]. apply elem_of_trigger_paths. eauto.
    + intros t' (Ht' & _ & (f & Hf' & ->)%elem_of_trigger_paths).
      apply (putative_targets_path_inj F O); [done..|]. simpl.
      destruct (trigger_origin F O t' f Ht' Hf') as (q & Hq & Hs).
      pose proof (join_split q (Hc q Hq)) as Hjq.
      rewrite Hs in Hjq. simpl in Hjq. rewrite Hjq, Hs. done.
  - apply putative_targets_keys_NoDup.
Qed.

Lemma paths_canonical_forallb (paths : gset string) :
  forallb posixpath.canonical (elements paths) = true → paths_canonical paths.
Proof.
  intros H p Hp%elem_of_elements%list_elem_of_In.
  by apply (proj1 (forallb_forall _ _) H).
Qed.

Lemma directory_grouping_witness : directory_grouping_correct scenario ["a/Foo.kt"].
Proof.
  apply (directory_grouping scenario ["a/Foo.kt"]).
  apply paths_canonical_forallb. vm_compute. reflexivity.
Defined.

Lemma doubled_separator_scan :
  putative_targets doubled_separator [] =
  [for_target_type KotlinSourcesGeneratorTarget "a" None ["Foo.kt"]].
Proof. by vm_compute. Qed.

(** The condition on the paths is used: were ["a//Foo.kt"], which the engine
    never resolves, the one candidate, it would be declared under directory
    ["a"] with trigger ["Foo.kt"], and ["a/Foo.kt"] is no candidate. *)
Lemma directory_grouping_needs_canonical :
  ¬ directory_grouping_correct doubled_separator [].
Proof.
  intros (H & _ & _).
  specialize (H (for_target_type KotlinSourcesGeneratorTarget "a" None ["Foo.kt"])
                "Foo.kt").
  rewrite doubled_separator_scan in H.
  assert (Hin : posixpath.join "a" "Foo.kt"
                  ∈ unowned_kotlin_files doubled_separator []).
  { apply H; by left. }
  revert Hin. by vm_compute.
Qed.

(** ** Idempotent exclusion (C3) *)

Lemma elem_of_emitted_paths ts p :
  p ∈ emitted_paths ts ↔ ∃ t, t ∈ ts ∧ p ∈ trigger_paths t.
Proof.
  unfold emitted_paths. rewrite list_elem_of_bind. split.
  - intros (t & Hp & Ht). eauto.
  - intros (t & Ht & Hp). eauto.
Qed.

(** Every canonical unowned candidate is among the reconstructed paths. *)
Lemma candidate_emitted F O p :
  paths_canonical (unowned_kotlin_files F O) →
  p ∈ unowned_kotlin_files F O →
  p ∈ emitted_paths (putative_targets F O).
Proof.
  intros Hc Hp. destruct (candidate_declared F O p Hp) as (fs & _ & Hf & Ht).
  apply elem_of_emitted_paths. eexists. split; [exact Ht|].
  apply elem_of_trigger_paths. eexists. split; [exact Hf|].
  simpl. symmetry. by apply join_split, Hc.
Qed.

(** C3.  For every resolved candidate list and owned list, the paths being
    resolved by the engine, which returns them normalised, so that the
    unowned candidates are canonical paths: when the scan is run again on the
    same candidates with the owned paths extended by every path [d/f]
    reconstructed from the first run's declarations, the second run emits no
    declaration at all. *)
Theorem idempotent_exclusion_canonical F O :
  paths_canonical (unowned_kotlin_files F O) →
  idempotent_exclusion F O.
Proof.
  intros Hc. apply putative_targets_nil. apply leibniz_equiv.
  intros p. split; [|by intros ?%elem_of_empty].
  unfold unowned_kotlin_files at 1.
  rewrite elem_of_difference, !elem_of_list_to_set, elem_of_app.
  intros [Hp Hno]. destruct Hno.
  destruct (decide (p ∈ O)) as [|HnO]; [by left|]. right.
  apply candidate_emitted; [done|].
  unfold unowned_kotlin_files.
  by rewrite elem_of_difference, !elem_of_list_to_set.
Qed.

Lemma idempotent_exclusion_witness : idempotent_exclusion scenario ["a/Foo.kt"].
Proof.
  apply (idempotent_exclusion_canonical scenario ["a/Foo.kt"]).
  apply paths_canonical_forallb. vm_compute. reflexivity.
Defined.

(** The condition on the paths is used: were ["a//Foo.kt"] a candidate, it
    would be declared as ["Foo.kt"] under ["a"], the owned paths would gain
    ["a/Foo.kt"], the candidate would stay unowned, and the second run would
    declare it again. *)
Lemma idempotent_exclusion_needs_canonical :
  ¬ idempotent_exclusion doubled_separator [].
Proof. unfold idempotent_exclusion. by vm_compute. Qed.

Example doubled_separator_rescan :
  putative_targets doubled_separator
    ([] ++ emitted_paths (putative_targets doubled_separator [])) =
  [for_target_type KotlinSourcesGeneratorTarget "a" None ["Foo.kt"]].
Proof. by vm_compute. Qed.

(** ** Only canonical paths are ever reconstructed *)

Section reconstructed_paths.
Import posixpath.

Lemma rcut_app_sep (x t : string) :
  no_sep t = true → rcut (x +:+ String sep t) = Some (x +:+ String sep "", t).
Proof.
  intros Ht. assert (Hnone : rcut t = None).
  { clear x. induction t as [|c t IH]; [done|]. simpl in *.
    apply andb_true_iff in Ht as [Hc Ht]. rewrite IH by done.
    by destruct (is_sep c). }
  induction x as [|c x IH].
  - change (rcut (String sep t) = Some (String sep "", t)). simpl.
    by rewrite Hnone.
  - rewrite !append_cons. simpl. by rewrite IH.
Qed.

Lemma rstrip_sep_app_sep (x : string) :
  rstrip_sep (x +:+ String sep "") = rstrip_sep x.
Proof.
  induction x as [|c x IH]; [done|]. rewrite append_cons. simpl. by rewrite IH.
Qed.

Lemma rstrip_sep_idemp (x : string) : rstrip_sep (rstrip_sep x) = rstrip_sep x.
Proof.
  induction x as [|c x IH]; [done|]. simpl.
  destruct (rstrip_sep x) as [|d r] eqn:Hr.
  - destruct (is_sep c) eqn:Hc; [done|]. simpl. by rewrite Hc.
  - simpl in *. by rewrite IH.
Qed.

Lemma join_split_canonical q :
  canonical (join (split q).1 (split q).2) = true.
Proof.
  destruct (canonical q) eqn:Hq; [by rewrite join_split|].
  revert Hq. unfold canonical, split.
  destruct (raw_split q) as [h t] eqn:Hraw.
  apply raw_split_spec in Hraw as (_ & _ & Ht).
  intros [Hall _]%orb_false_iff. rewrite Hall. simpl.
  unfold join. rewrite (no_sep_startswith t Ht), rstrip_sep_endswith.
  rewrite bool_decide_eq_false_2; [simpl|].
  - unfold raw_split. rewrite rcut_app_sep by done.
    rewrite rstrip_sep_app_sep, rstrip_sep_idemp.
    rewrite bool_decide_eq_true_2 by done. apply orb_true_r.
  - intros Hr%rstrip_sep_empty. congruence.
Qed.

End reconstructed_paths.

Lemma emitted_paths_canonical F O p :
  p ∈ emitted_paths (putative_targets F O) → posixpath.canonical p = true.
Proof.
  intros (t & Ht & (f & Hf & ->)%elem_of_trigger_paths)%elem_of_emitted_paths.
  destruct (trigger_origin F O t f Ht Hf) as (q & _ & Hq).
  pose proof (join_split_canonical q) as Hc. by rewrite Hq in Hc.
Qed.

(** The grouping property holds of no scan that has a candidate which is not
    canonical: the condition of [directory_grouping] cannot be weakened. *)
Lemma directory_grouping_only_canonical F O :
  directory_grouping_correct F O → paths_canonical (unowned_kotlin_files F O).
Proof.
  intros (_ & H & _) p Hp.
  destruct (H KotlinSourcesGeneratorTarget (unowned_kotlin_files F O) p)
    as (t & (Ht & _ & Hpt) & _); [|done|].
  - unfold classify_source_files. rewrite list_to_set_elements_L. by left.
  - apply (emitted_paths_canonical F O), elem_of_emitted_paths. eauto.
Qed.

(** Nor can the condition of [idempotent_exclusion_canonical]. *)
Lemma idempotent_exclusion_only_canonical F O :
  idempotent_exclusion F O → paths_canonical (unowned_kotlin_files F O).
Proof.
  unfold idempotent_exclusion. intros Hnil p Hp.
  destruct (posixpath.canonical p) eqn:Hc; [done|]. exfalso.
  assert (Hp' : p ∈ unowned_kotlin_files F
                  (O ++ emitted_paths (putative_targets F O))).
  { revert Hp. unfold unowned_kotlin_files.
    rewrite !elem_of_difference, !elem_of_list_to_set, elem_of_app.
    intros [Hin HnO]. split; [done|]. intros [?|He]; [done|].
    apply emitted_paths_canonical in He. congruence. }
  destruct (candidate_declared _ _ p Hp') as (fs & _ & _ & Ht).
  rewrite Hnil in Ht. by apply elem_of_nil in Ht.
Qed.

(** ** The unowned candidates (C5) *)

(** C5.  The candidates that reach classification are the plain set
    difference of the resolved paths and the owned paths: a path is classified
    exactly when it is resolved and not owned; in particular, the paths being
    resolved by the engine, which returns them normalised, so that the
    unowned candidates are canonical paths, no owned path is among the paths
    [d/f] reconstructed from the emitted declarations. *)
Theorem unowned_is_difference F O :
  (∀ p, p ∈ elements (unowned_kotlin_files F O) ↔ p ∈ files F ∧ p ∉ O) ∧
  (∀ tgt_type paths p,
      (tgt_type, paths)
        ∈ classify_source_files (elements (unowned_kotlin_files F O)) →
      p ∈ paths ↔ p ∈ files F ∧ p ∉ O) ∧
  (paths_canonical (unowned_kotlin_files F O) → owned_never_emitted F O).
Proof.
  assert (HU : ∀ p, p ∈ unowned_kotlin_files F O ↔ p ∈ files F ∧ p ∉ O).
  { intros p. unfold unowned_kotlin_files.
    by rewrite elem_of_difference, !elem_of_list_to_set. }
  split_and!.
  - intros p. by rewrite elem_of_elements.
  - intros ty paths p [= -> ->]%list_elem_of_singleton.
    by rewrite list_to_set_elements_L.
  - intros Hc t p Ht (f & Hf & ->)%elem_of_trigger_paths.
    by apply HU, trigger_in_unowned.
Qed.

Lemma unowned_is_difference_witness : owned_never_emitted scenario ["a/Foo.kt"].
Proof.
  apply (proj2 (proj2 (unowned_is_difference scenario ["a/Foo.kt"]))).
  apply paths_canonical_forallb. vm_compute. reflexivity.
Defined.

(** The condition on the paths is used: were ["a//Foo.kt"] resolved while
    ["a/Foo.kt"] is owned, the declaration under ["a"] with trigger ["Foo.kt"]
    would reconstruct the owned path. *)
Lemma owned_never_emitted_needs_canonical :
  ¬ owned_never_emitted doubled_separator ["a/Foo.kt"].
Proof.
  intros H.
  apply (H (for_target_type KotlinSourcesGeneratorTarget "a" None ["Foo.kt"])
           "a/Foo.kt").
  - assert (Hs : putative_targets doubled_separator ["a/Foo.kt"] =
                 [for_target_type KotlinSourcesGeneratorTarget "a" None ["Foo.kt"]])
      by by vm_compute.
    rewrite Hs. by left.
  - by left.
  - by left.
Qed.

(** ** The classifier (C2) *)

(** C2.  [classify_source_files] returns, for every finite collection of
    paths, a mapping with pairwise distinct keys whose values together hold
    exactly the input paths, each path under exactly one declaration type. *)
Theorem classify_source_files_total (paths : list string) :
  NoDup (keys (classify_source_files paths)) ∧
  ⋃ (classify_source_files paths).*2 = list_to_set paths ∧
  Forall (λ p, ∃ tgt_type,
            (∃ s, (tgt_type, s) ∈ classify_source_files paths ∧ p ∈ s) ∧
            ∀ tgt_type' s', (tgt_type', s') ∈ classify_source_files paths ∧ p ∈ s' →
                            tgt_type' = tgt_type)
         paths ∧
  Forall (λ '(_, s), ∀ p, p ∈ s ↔ p ∈ paths) (classify_source_files paths).
Proof.
  unfold classify_source_files. split_and!.
  - apply NoDup_singleton.
  - simpl. by rewrite union_empty_r_L.
  - apply Forall_forall. intros p Hp. exists KotlinSourcesGeneratorTarget. split.
    + eexists. split; [by left|]. by apply elem_of_list_to_set.
    + by intros ty s [[= -> ->]%list_elem_of_singleton _].
  - apply Forall_singleton. intros p. apply elem_of_list_to_set.
Qed.

(** ** Nothing to declare (C4) *)

Lemma run_find_putative_targets {E} (resolve : PathGlobs → E + Paths) req O :
  run resolve (find_putative_targets req O) =
  match resolve (path_globs (search_paths req) "*.kt") with
  | inl e => ([path_globs (search_paths req) "*.kt"], inl e)
  | inr all_kotlin_files =>
      ([path_globs (search_paths req) "*.kt"],
       inr (putative_targets all_kotlin_files O))
  end.
Proof. simpl. by destruct (resolve _). Qed.

(** C4.  When the resolution of the globs answers with no file, or only with
    files that are owned already, [find_putative_targets] returns the empty
    sequence of declarations. *)
Theorem nothing_to_declare {E} (resolve : PathGlobs → E + Paths) req O F :
  resolve (path_globs (search_paths req) "*.kt") = inr F →
  files F = [] ∨ (∀ p, p ∈ files F → p ∈ O) →
  (run resolve (find_putative_targets req O)).2 = inr []
  ∧ putative_targets F O = [].
Proof.
  intros HF Hcase. rewrite run_find_putative_targets, HF. simpl.
  assert (Hnil : putative_targets F O = []); [|by rewrite Hnil].
  apply putative_targets_nil, leibniz_equiv. intros p.
  split; [|by intros ?%elem_of_empty]. unfold unowned_kotlin_files.
  rewrite elem_of_difference, !elem_of_list_to_set. intros [Hp HnO].
  destruct Hcase as [Hnil|Hsub].
  - rewrite Hnil in Hp. by apply elem_of_nil in Hp.
  - destruct HnO. by apply Hsub.
Qed.

Lemma nothing_to_declare_witness :
  (run (λ _, inr scenario : unit + Paths)
       (find_putative_targets {| search_paths := {| search_dirs := [""] |} |}
          ["b/Baz.kt"; "a/Foo.kt"; "a/Bar.kt"; "c/Qux.kt"])).2 = inr []
  ∧ putative_targets scenario ["b/Baz.kt"; "a/Foo.kt"; "a/Bar.kt"; "c/Qux.kt"] = [].
Proof.
  apply (nothing_to_declare (λ _, inr scenario) _ _ scenario); [reflexivity|].
  right. intros p Hp. simpl in Hp.
  repeat (apply elem_of_cons in Hp as [->|Hp]; [by repeat constructor|]).
  by apply elem_of_nil in Hp.
Defined.

(** ** One declaration per group (C6) *)

Lemma groups_nonempty F O :
  Forall (λ g, g.2 ≠ ∅) (groups F O).
Proof.
  rewrite groups_eq. apply Forall_fmap, Forall_forall.
  intros [d fs] Hg. simpl. by apply group_by_dir_elem in Hg as [? _].
Qed.

(** C6, as amended.  The groups are pairwise distinct in (type, directory) and
    none has an empty set of filenames; the declarations stand one for one
    against the groups, in their order; and each declaration is the one
    [for_target_type] builds when asked with [name=None] for the type and the
    directory of its group: it carries that type and directory, the name
    defaulted from the directory (its last segment), and as triggers the
    sorted list of the group's basenames, the one ordered list without
    repetition of exactly these basenames. *)
Theorem one_declaration_per_group F O :
  NoDup ((λ g, (g.1.1, g.1.2)) <$> groups F O) ∧
  Forall (λ g, g.2 ≠ ∅) (groups F O) ∧
  Forall2 (λ t g,
             t = for_target_type g.1.1 g.1.2 None (sorted (elements g.2)) ∧
             type_alias t = g.1.1 ∧ path t = g.1.2 ∧
             name t = Some (posixpath.basename g.1.2) ∧
             triggering_sources t = sorted (elements g.2) ∧
             StronglySorted (≤)%string (triggering_sources t) ∧
             NoDup (triggering_sources t) ∧
             ∀ f, f ∈ triggering_sources t ↔ f ∈ g.2)
          (putative_targets F O) (groups F O).
Proof.
  split_and!.
  - rewrite groups_eq, <-list_fmap_compose.
    pose proof (putative_targets_keys_NoDup F O) as Hnd.
    by rewrite putative_targets_eq, <-list_fmap_compose in Hnd.
  - apply groups_nonempty.
  - rewrite putative_targets_eq, groups_eq.
    apply Forall2_fmap, Forall_Forall2_diag, Forall_forall.
    intros [d fs] _. simpl. split_and!; try done.
    + apply sorted_StronglySorted.
    + apply sorted_NoDup, NoDup_elements.
    + intros f. by rewrite elem_of_sorted, elem_of_elements.
Qed.

(** C6 fails as stated: the declarations of the scenario are named ["a"] and
    ["b"] after their directories; none has the name [None]. *)
Lemma one_declaration_per_group_counterexample :
  ¬ Forall (λ t, name t = None) (putative_targets scenario []) ∧
  name <$> putative_targets scenario [] = [Some "a"; Some "b"].
Proof.
  split; [|by vm_compute].
  intros H. eapply Forall_forall in H; [|by vm_compute; left]. done.
Qed.

(** The name of a declaration is never [None], whatever is scanned. *)
Lemma putative_targets_named F O :
  Forall (λ t, name t = Some (posixpath.basename (path t)))
         (putative_targets F O).
Proof.
  apply Forall_forall. by intros t (d & fs & _ & ->)%elem_of_putative_targets.
Qed.

(** ** Blocks by type (C7) *)

Section blocks.
Context {T : Type}.
Implicit Types (bs : list (T * nat)) (l : list T).

(** A sequence of blocks, each of one tag, with no tag used for two blocks,
    keeps every tag contiguous. *)
Lemma blocks_contiguous bs i j k a b :
  NoDup bs.*1 →
  i ≤ j → j ≤ k →
  (bs ≫= λ '(t, n), replicate n t) !! i = Some a →
  (bs ≫= λ '(t, n), replicate n t) !! j = Some b →
  (bs ≫= λ '(t, n), replicate n t) !! k = Some a →
  b = a.
Proof.
  revert i j k. induction bs as [|[t n] bs IH]; intros i j k Hnd Hij Hjk.
  { intros Hi. by destruct i. }
  rewrite bind_cons. apply NoDup_cons in Hnd as [Ht Hnd].
  assert (Hrest : ∀ m x, (bs ≫= λ '(t, n), replicate n t) !! m = Some x → x ≠ t).
  { intros m x Hx%list_elem_of_lookup_2 ->.
    apply list_elem_of_bind in Hx as ([t' n'] & Hx & Hin).
    apply elem_of_replicate in Hx as [-> _].
    apply Ht, list_elem_of_fmap. by exists (t', n'). }
  intros Hi Hj Hk.
  destruct (decide (i < n)) as [Hin|Hin].
  - rewrite lookup_app_l in Hi by by rewrite length_replicate.
    apply lookup_replicate in Hi as [-> _].
    destruct (decide (k < n)) as [Hkn|Hkn].
    + rewrite lookup_app_l in Hj by (rewrite length_replicate; lia).
      by apply lookup_replicate in Hj as [-> _].
    + rewrite lookup_app_r in Hk by (rewrite length_replicate; lia).
      by apply Hrest in Hk.
  - rewrite lookup_app_r in Hi, Hj, Hk by (rewrite length_replicate; lia).
    rewrite length_replicate in Hi, Hj, Hk.
    apply (IH (i - n) (j - n) (k - n)); [done|lia|lia|done..].
Qed.
End blocks.

Lemma type_alias_blocks (classified : dict target_type (gset string)) :
  type_alias <$>
    (classified ≫= λ '(tgt_type, paths),
       group_by_dir (elements paths) ≫= λ '(dirname, filenames),
         [for_target_type tgt_type dirname None (sorted (elements filenames))]) =
  ((λ '(tgt_type, paths), (tgt_type, length (group_by_dir (elements paths))))
     <$> classified) ≫= λ '(t, n), replicate n t.
Proof.
  induction classified as [|[ty paths] cl IH]; [done|].
  rewrite fmap_cons, !bind_cons, fmap_app, IH. f_equal.
  generalize (group_by_dir (elements paths)). intros g.
  induction g as [|[d fs] g IHg]; [done|].
  rewrite bind_cons, fmap_app, IHg. done.
Qed.

(** The loops of lines 47 and 48 keep the declarations of one type together,
    whatever classification they run through. *)
Lemma emitted_contiguous (classified : dict target_type (gset string)) :
  NoDup (keys classified) →
  contiguous_by_type
    (classified ≫= λ '(tgt_type, paths),
       group_by_dir (elements paths) ≫= λ '(dirname, filenames),
         [for_target_type tgt_type dirname None (sorted (elements filenames))]).
Proof.
  intros Hnd i j k a b c Hij Hjk Hi Hj Hk Hac.
  apply (f_equal (fmap type_alias)) in Hi, Hj, Hk.
  rewrite <-!list_lookup_fmap, type_alias_blocks in Hi, Hj, Hk. simpl in *.
  rewrite <-Hac in Hk.
  eapply blocks_contiguous; [|exact Hij|exact Hjk|exact Hi|exact Hj|exact Hk].
  rewrite <-list_fmap_compose.
  erewrite list_fmap_ext; [exact Hnd|]. by intros ? [??].
Qed.

(** C7.  The declarations come as one block per entry of the classification,
    in the order of its entries, each block of the entry's type and as long as
    the entry has directories; so no two declarations of one type are
    separated by a declaration of another type. *)
Theorem declarations_grouped_by_type F O :
  contiguous_by_type (putative_targets F O) ∧
  type_alias <$> putative_targets F O =
  classify_source_files (elements (unowned_kotlin_files F O))
    ≫= λ '(tgt_type, paths),
         replicate (length (group_by_dir (elements paths))) tgt_type.
Proof.
  split.
  - apply emitted_contiguous, NoDup_singleton.
  - unfold putative_targets. rewrite type_alias_blocks.
    unfold classify_source_files. reflexivity.
Qed.

Lemma declarations_grouped_by_type_witness :
  type_alias (for_target_type KotlinSourcesGeneratorTarget "b" None ["Baz.kt"]) =
  type_alias (for_target_type KotlinSourcesGeneratorTarget "a" None ["Bar.kt"; "Foo.kt"]).
Proof.
  apply (proj1 (declarations_grouped_by_type scenario []) 0 1 1 _ _
           (for_target_type KotlinSourcesGeneratorTarget "b" None ["Baz.kt"]));
    [lia|lia|by vm_compute..|reflexivity].
Defined.

(** ** Failure of the path resolution (C8) *)

(** C8.  A run of [find_putative_targets] asks the path resolution exactly
    once, for the [*.kt] globs of the request; when that fails the run fails
    with the very same error and yields no declaration, and otherwise it
    returns the whole sequence of declarations computed from the answer. *)
Theorem resolution_error_propagates {E} (resolve : PathGlobs → E + Paths) req O :
  (run resolve (find_putative_targets req O)).1 =
    [path_globs (search_paths req) "*.kt"] ∧
  (run resolve (find_putative_targets req O)).2 =
    match resolve (path_globs (search_paths req) "*.kt") with
    | inl e => inl e
    | inr all_kotlin_files => inr (putative_targets all_kotlin_files O)
    end.
Proof. simpl. by destruct (resolve _). Qed.

Example resolution_fails :
  run (λ _, inl "permission denied")
      (find_putative_targets {| search_paths := {| search_dirs := ["src"] |} |} [])
  = ([path_globs {| search_dirs := ["src"] |} "*.kt"], inl "permission denied").
Proof. reflexivity. Qed.

(** ** [determine_version] (C9) *)

Example determine_version_dev :
  determine_version
    {| epoch := 0; release := [2; 15; 0]%N; pre := None; post := None;
       dev := Some 3%N; local := None |} = "==2.15.0.dev3".
Proof. by vm_compute. Qed.

Example determine_version_rc :
  determine_version
    {| epoch := 0; release := [2; 15; 0]%N; pre := Some ("rc", 1%N);
       post := None; dev := None; local := None |} = ">=2.15.0a0,<2.16".
Proof. by vm_compute. Qed.

Example determine_version_stable :
  determine_version
    {| epoch := 0; release := [2; 9; 3]%N; pre := None; post := None;
       dev := None; local := None |} = ">=2.9.0a0,<2.10".
Proof. by vm_compute. Qed.

(** C9.  [determine_version] is a function of [PANTS_SEMVER] alone.  For a
    dev release it is the exact pin [==<version>]; for any other release it is
    the range [>=<major>.<minor>.0a0,<<major>.<minor+1>]; and it is an exact
    pin, of this or of any version string, only for a dev release. *)
Theorem determine_version_spec (PANTS_SEMVER : Version) :
  determine_version PANTS_SEMVER =
    (if is_devrelease PANTS_SEMVER
     then "==" +:+ Version_str PANTS_SEMVER
     else ">=" +:+ pretty (major PANTS_SEMVER) +:+ "."
               +:+ pretty (minor PANTS_SEMVER) +:+ ".0a0,<"
               +:+ pretty (major PANTS_SEMVER) +:+ "."
               +:+ pretty (minor PANTS_SEMVER + 1)%N) ∧
  (determine_version PANTS_SEMVER = "==" +:+ Version_str PANTS_SEMVER ↔
   is_devrelease PANTS_SEMVER = true) ∧
  ((∃ pin, determine_version PANTS_SEMVER = "==" +:+ pin) ↔
   is_Some (dev PANTS_SEMVER)).
Proof.
  unfold determine_version, is_devrelease. split_and!.
  - by case_bool_decide.
  - case_bool_decide as Hdev; [done|]. split; [|done].
    intros H. by apply (f_equal (String.get 0)) in H.
  - case_bool_decide as Hdev.
    + split; [done|]. intros _. by eexists.
    + split; [|done]. intros [pin H]. by apply (f_equal (String.get 0)) in H.
Qed.

(** ** [generate_from_pants_requirements] (C10) *)

Lemma create_tgt_address ra ma request um version dist module :
  address (create_tgt ra ma request um version dist module) =
  create_generated (template_address request) dist.
Proof. reflexivity. Qed.

(** The requirement written for a distribution is read back unless the
    template carries an entry of its own under the same alias. *)
Lemma create_tgt_requirements ra ma request um version dist module :
  ra ≠ ma → template request !! ra = None →
  unhydrated_values (create_tgt ra ma request um version dist module) !! ra =
  Some (VTuple [dist +:+ version]).
Proof.
  intros Hne Htpl. simpl. rewrite lookup_union_r by done.
  rewrite lookup_insert_ne by done. by rewrite lookup_insert_eq.
Qed.

(** C10.  The result names the generator and holds the target generated for
    [pantsbuild.pants], followed by the target generated for
    [pantsbuild.pants.testutil] exactly when the generator's [testutil] field
    is true, and nothing else: one target or two, under distinct addresses.
    Each is built by [create_tgt] with the version of [determine_version],
    which is the requirement read back from the target whenever the template
    holds no requirements entry of its own. *)
Theorem generated_targets_spec (PANTS_SEMVER : Version) (ra ma : string)
    (request : GenerateFromPantsRequirementsRequest) (um : UnionMembership) :
  let result := generate_from_pants_requirements PANTS_SEMVER ra ma request um in
  let version := determine_version PANTS_SEMVER in
  let pants := create_tgt ra ma request um version "pantsbuild.pants" "pants" in
  let testutil := create_tgt ra ma request um version
                    "pantsbuild.pants.testutil" "pants.testutil" in
  generated_by result = generator request ∧
  generated result =
    pants :: (if PantsRequirementsTestutilField (generator request)
              then [testutil] else []) ∧
  pants ∈ generated result ∧
  (testutil ∈ generated result ↔
   PantsRequirementsTestutilField (generator request) = true) ∧
  Forall (λ t, t = pants ∨ t = testutil) (generated result) ∧
  (length (generated result) = 1 ∨ length (generated result) = 2) ∧
  NoDup (address <$> generated result) ∧
  address pants =
    create_generated (template_address request) "pantsbuild.pants" ∧
  address testutil =
    create_generated (template_address request) "pantsbuild.pants.testutil" ∧
  (ra ≠ ma → template request !! ra = None →
   unhydrated_values pants !! ra =
     Some (VTuple ["pantsbuild.pants" +:+ determine_version PANTS_SEMVER]) ∧
   unhydrated_values testutil !! ra =
     Some (VTuple ["pantsbuild.pants.testutil"
                   +:+ determine_version PANTS_SEMVER])).
Proof.
  intros result version pants testutil.
  assert (Hne : testutil ≠ pants).
  { intros H. apply (f_equal (generated_name ∘ address)) in H. done. }
  subst result. unfold generate_from_pants_requirements.
  fold version. fold pants. fold testutil.
  destruct (PantsRequirementsTestutilField (generator request)); simpl.
  - split_and!; try done.
    + by left.
    + split; [done|]. intros _. right. by left.
    + apply Forall_cons; split; [by left|]. apply Forall_singleton. by right.
    + by right.
    + apply NoDup_cons. split; [|apply NoDup_singleton].
      intros Hin%list_elem_of_singleton. done.
    + intros Hne' Htpl. split; by apply (create_tgt_requirements ra ma request um).
  - split_and!; try done.
    + by left.
    + split; [|done]. intros Hin%list_elem_of_singleton. done.
    + apply Forall_singleton. by left.
    + by left.
    + apply NoDup_singleton.
    + intros Hne' Htpl. split; by apply (create_tgt_requirements ra ma request um).
Qed.

Lemma generated_targets_spec_witness :
  unhydrated_values
    (create_tgt "requirements" "modules" sample_request sample_union_membership
       (determine_version sample_version) "pantsbuild.pants" "pants")
    !! "requirements" = Some (VTuple ["pantsbuild.pants==2.15.0.dev3"]).
Proof.
  pose proof (generated_targets_spec sample_version "requirements" "modules"
                sample_request sample_union_membership) as H.
  destruct H as (_ & _ & _ & _ & _ & _ & _ & _ & _ & H).
  apply H; [done|reflexivity].
Defined.

Example generated_sample :
  length (generated (generate_from_pants_requirements sample_version
            "requirements" "modules" sample_request sample_union_membership)) = 2.
Proof. reflexivity. Qed.

(** ** The scenarios of the specification *)

Example scenario_unowned :
  putative_targets scenario [] =
  [for_target_type KotlinSourcesGeneratorTarget "a" None ["Bar.kt"; "Foo.kt"];
   for_target_type KotlinSourcesGeneratorTarget "b" None ["Baz.kt"]].
Proof. by vm_compute. Qed.

Example scenario_one_owned :
  putative_targets scenario ["a/Foo.kt"] =
  [for_target_type KotlinSourcesGeneratorTarget "a" None ["Bar.kt"];
   for_target_type KotlinSourcesGeneratorTarget "b" None ["Baz.kt"]].
Proof. by vm_compute. Qed.

Example scenario_no_candidates O :
  putative_targets {| files := []; dirs := [] |} O = [].
Proof.
  apply putative_targets_nil. unfold unowned_kotlin_files. simpl.
  apply leibniz_equiv. intros p. rewrite elem_of_difference.
  split; [by intros [?%elem_of_empty _]|by intros ?%elem_of_empty].
Qed.

(** * Further properties of the tailor rule *)

Lemma elem_of_unowned F O p :
  p ∈ unowned_kotlin_files F O ↔ p ∈ files F ∧ p ∉ O.
Proof.
  unfold unowned_kotlin_files.
  by rewrite elem_of_difference, !elem_of_list_to_set.
Qed.

(** X1.  A declaration for directory [d] lists basename [f] exactly when some
    resolved file that is not owned splits into [d] and [f]: no candidate is
    lost and no trigger is invented, whatever the paths look like. *)
Theorem triggers_characterised F O d f :
  (∃ t, t ∈ putative_targets F O ∧ path t = d ∧ f ∈ triggering_sources t) ↔
  (∃ p, p ∈ files F ∧ (p ∉ O) ∧ posixpath.split p = (d, f)).
Proof.
  split.
  - intros (t & Ht & <- & Hf).
    destruct (trigger_origin F O t f Ht Hf) as (p & [??]%elem_of_unowned & Hs).
    eauto.
  - intros (p & Hp & HnO & Hs).
    destruct (candidate_declared F O p) as (fs & _ & Hf & Ht).
    { by apply elem_of_unowned. }
    rewrite Hs in Hf, Ht. simpl in Hf. eexists. split_and!; [exact Ht|done..].
Qed.

Lemma split_shape p :
  posixpath.no_sep (posixpath.split p).2 = true ∧
  (posixpath.endswith_sep (posixpath.split p).1 = true →
   posixpath.all_sep (posixpath.split p).1 = true).
Proof.
  unfold posixpath.split. destruct (posixpath.raw_split p) as [h t] eqn:Hraw.
  apply raw_split_spec in Hraw as (_ & _ & Ht).
  destruct (posixpath.all_sep h) eqn:Hall; simpl; [done|].
  split; [done|]. by rewrite rstrip_sep_endswith.
Qed.

(** X2.  Every declaration has at least one trigger; every trigger is a bare
    file name, with no separator in it; and the directory of a declaration
    ends with a separator only when it consists of separators (the root). *)
Theorem triggers_are_basenames F O :
  Forall (λ t, triggering_sources t ≠ [] ∧
               Forall (λ f, posixpath.no_sep f = true) (triggering_sources t) ∧
               (posixpath.all_sep (path t) = false →
                posixpath.endswith_sep (path t) = false))
         (putative_targets F O).
Proof.
  apply Forall_forall. intros t Ht. split_and!.
  - apply elem_of_putative_targets in Ht as (d & fs & Hg & ->). simpl.
    apply group_by_dir_elem in Hg as [Hne _]. intros Hnil.
    apply Hne, leibniz_equiv, elements_empty_iff.
    apply Permutation_nil_r. by rewrite <-(sorted_Permutation (elements fs)), Hnil.
  - apply Forall_forall. intros f Hf.
    destruct (trigger_origin F O t f Ht Hf) as (p & _ & Hs).
    pose proof (split_shape p) as [Hno _]. by rewrite Hs in Hno.
  - apply elem_of_putative_targets in Ht as (d & fs & Hg & ->). simpl.
    apply group_by_dir_elem in Hg as [Hne Hfs].
    assert (∃ f, f ∈ fs) as [f Hf].
    { apply set_choose_L. done. }
    apply Hfs in Hf as (p & _ & Hs).
    pose proof (split_shape p) as [_ Hd]. rewrite Hs in Hd. simpl in Hd.
    intros Hall. destruct (posixpath.endswith_sep d); [|done].
    rewrite Hd in Hall; done.
Qed.

(** X3.  The rule proposes nothing exactly when every resolved file is owned
    already. *)
Theorem no_declaration_iff_all_owned F O :
  putative_targets F O = [] ↔ ∀ p, p ∈ files F → p ∈ O.
Proof.
  split.
  - intros Hnil p Hp. destruct (decide (p ∈ O)) as [|HnO]; [done|].
    destruct (candidate_declared F O p) as (fs & _ & _ & Ht).
    { by apply elem_of_unowned. }
    rewrite Hnil in Ht. by apply elem_of_nil in Ht.
  - intros Hsub. apply putative_targets_nil, leibniz_equiv. intros p.
    rewrite elem_of_unowned. split; [|by intros ?%elem_of_empty].
    intros [Hp HnO]. destruct HnO. by apply Hsub.
Qed.

Lemma trigger_paths_NoDup F O t :
  paths_canonical (unowned_kotlin_files F O) →
  t ∈ putative_targets F O → NoDup (trigger_paths t).
Proof.
  intros Hc Ht. unfold trigger_paths.
  assert (Hnd : NoDup (triggering_sources t)).
  { apply elem_of_putative_targets in Ht as (d & fs & _ & ->). simpl.
    apply sorted_NoDup, NoDup_elements. }
  revert Hnd. generalize (λ f, trigger_origin F O t f Ht).
  induction (triggering_sources t) as [|f fs IH]; intros Hor Hnd.
  { constructor. }
  apply NoDup_cons in Hnd as [Hf Hnd]. rewrite fmap_cons. apply NoDup_cons. split.
  - intros (f' & Heq & Hf')%list_elem_of_fmap. apply Hf.
    destruct (Hor f) as (p & Hp & Hs); [by left|].
    destruct (Hor f') as (p' & Hp' & Hs'); [by right|].
    pose proof (join_split p (Hc p Hp)) as Hj. rewrite Hs in Hj.
    pose proof (join_split p' (Hc p' Hp')) as Hj'. rewrite Hs' in Hj'.
    simpl in *. assert (p = p') by congruence. subst p'.
    assert (f = f') by congruence. by subst f'.
  - apply IH; [|done]. intros f' Hf'. apply Hor. by right.
Qed.

Lemma emitted_paths_NoDup F O :
  paths_canonical (unowned_kotlin_files F O) →
  NoDup (emitted_paths (putative_targets F O)).
Proof.
  intros Hc. unfold emitted_paths. apply NoDup_bind.
  - intros t t' p Ht Ht' (f & Hf & ->)%elem_of_trigger_paths
      (f' & Hf' & Heq)%elem_of_trigger_paths.
    apply (putative_targets_path_inj F O); [done..|].
    destruct (trigger_origin F O t f Ht Hf) as (q & Hq & Hs).
    destruct (trigger_origin F O t' f' Ht' Hf') as (q' & Hq' & Hs').
    pose proof (join_split q (Hc q Hq)) as Hj. rewrite Hs in Hj.
    pose proof (join_split q' (Hc q' Hq')) as Hj'. rewrite Hs' in Hj'.
    simpl in *. assert (q = q') by congruence. subst q'. congruence.
  - intros t Ht. by apply (trigger_paths_NoDup F O).
  - apply putative_targets_NoDup.
Qed.

(** X4.  When the unowned candidates are canonical paths, the paths
    reconstructed from the declarations are the unowned candidates, each
    exactly once: the declarations partition the candidates. *)
Theorem emitted_paths_partition F O :
  paths_canonical (unowned_kotlin_files F O) →
  emitted_paths (putative_targets F O) ≡ₚ elements (unowned_kotlin_files F O) ∧
  length (emitted_paths (putative_targets F O)) = size (unowned_kotlin_files F O).
Proof.
  intros Hc.
  assert (Hp : emitted_paths (putative_targets F O)
                 ≡ₚ elements (unowned_kotlin_files F O)).
  { apply NoDup_Permutation.
    - by apply emitted_paths_NoDup.
    - apply NoDup_elements.
    - intros p. rewrite elem_of_elements. split.
      + intros (t & Ht & (f & Hf & ->)%elem_of_trigger_paths)%elem_of_emitted_paths.
        by apply trigger_in_unowned.
      + by apply candidate_emitted. }
  split; [done|]. by rewrite Hp.
Qed.

Lemma emitted_paths_partition_witness :
  emitted_paths (putative_targets scenario ["a/Foo.kt"])
    ≡ₚ elements (unowned_kotlin_files scenario ["a/Foo.kt"]) ∧
  length (emitted_paths (putative_targets scenario ["a/Foo.kt"])) =
  size (unowned_kotlin_files scenario ["a/Foo.kt"]).
Proof.
  apply (emitted_paths_partition scenario ["a/Foo.kt"]).
  apply paths_canonical_forallb. vm_compute. reflexivity.
Defined.

(** X5.  Owning more never proposes more: when the owned paths grow, every
    declaration of the new scan has a declaration of the old scan for the
    same type and directory that lists all its triggers. *)
Theorem owned_monotone F O O' t' :
  (∀ p, p ∈ O → p ∈ O') →
  t' ∈ putative_targets F O' →
  ∃ t, t ∈ putative_targets F O ∧
       type_alias t = type_alias t' ∧ path t = path t' ∧
       ∀ f, f ∈ triggering_sources t' → f ∈ triggering_sources t.
Proof.
  intros Hsub Ht'.
  assert (Hmono : ∀ p, p ∈ unowned_kotlin_files F O' → p ∈ unowned_kotlin_files F O).
  { intros p. rewrite !elem_of_unowned. intros [? HnO]. split; [done|]. auto. }
  pose proof Ht' as (d & fs' & Hg' & ->)%elem_of_putative_targets. simpl.
  pose proof Hg' as [Hne Hfs']%group_by_dir_elem.
  apply set_choose_L in Hne as [f0 Hf0].
  apply Hfs' in Hf0 as (p0 & Hp0%elem_of_elements%Hmono & Hs0).
  destruct (candidate_declared F O p0 Hp0) as (fs & Hg & _ & Ht).
  rewrite Hs0 in Hg, Ht. simpl in *.
  eexists. split_and!; [exact Ht|done|done|]. simpl.
  intros f Hf%elem_of_sorted%elem_of_elements.
  apply elem_of_sorted, elem_of_elements.
  apply Hfs' in Hf as (p & Hp%elem_of_elements%Hmono & Hs).
  apply group_by_dir_elem in Hg as [_ Hfs]. apply Hfs.
  exists p. split; [by apply elem_of_elements|done].
Qed.

Lemma owned_monotone_witness :
  ∃ t, t ∈ putative_targets scenario [] ∧
       type_alias t = KotlinSourcesGeneratorTarget ∧ path t = "a" ∧
       ∀ f, f ∈ ["Bar.kt"] → f ∈ triggering_sources t.
Proof.
  apply (owned_monotone scenario [] ["a/Foo.kt"]
           (for_target_type KotlinSourcesGeneratorTarget "a" None ["Bar.kt"])).
  - by intros p ?%elem_of_nil.
  - vm_compute. by left.
Defined.

(** X6.  Owned paths that are not among the resolved files, such as the
    sources of other languages, change nothing. *)
Theorem foreign_owned_irrelevant F O X :
  (∀ p, p ∈ X → p ∉ files F) →
  putative_targets F (O ++ X) = putative_targets F O.
Proof.
  intros HX. rewrite !putative_targets_eq. do 3 f_equal.
  apply leibniz_equiv. intros p. rewrite !elem_of_unowned, elem_of_app.
  split; intros [Hp Hn]; (split; [done|]).
  - intros ?. apply Hn. by left.
  - intros [?|Hx]; [done|]. by apply (HX p).
Qed.

Lemma foreign_owned_irrelevant_witness :
  putative_targets scenario (["a/Foo.kt"] ++ ["a/app.py"; "README.md"]) =
  putative_targets scenario ["a/Foo.kt"].
Proof.
  apply (foreign_owned_irrelevant scenario ["a/Foo.kt"] ["a/app.py"; "README.md"]).
  intros p Hp Hin. simpl in Hin.
  repeat (apply elem_of_cons in Hp as [->|Hp];
          [by repeat (apply elem_of_cons in Hin as [?|Hin]; [done|]);
              apply elem_of_nil in Hin|]).
  by apply elem_of_nil in Hp.
Defined.

(** X7.  Only the sets of resolved and of owned paths matter: repeating or
    reordering the entries of either list leaves the same declarations. *)
Theorem inputs_as_sets F F' O O' :
  (∀ p, p ∈ files F ↔ p ∈ files F') →
  (∀ p, p ∈ O ↔ p ∈ O') →
  putative_targets F O ≡ₚ putative_targets F' O'.
Proof.
  intros HF HO. rewrite !putative_targets_eq.
  replace (unowned_kotlin_files F' O') with (unowned_kotlin_files F O); [done|].
  apply leibniz_equiv. intros p. by rewrite !elem_of_unowned, HF, HO.
Qed.

Lemma inputs_as_sets_witness :
  putative_targets scenario ["a/Foo.kt"] ≡ₚ
  putative_targets
    {| files := ["b/Baz.kt"; "a/Bar.kt"; "a/Foo.kt"; "a/Bar.kt"]; dirs := ["a"] |}
    ["a/Foo.kt"; "a/Foo.kt"].
Proof.
  apply (inputs_as_sets scenario
           {| files := ["b/Baz.kt"; "a/Bar.kt"; "a/Foo.kt"; "a/Bar.kt"];
              dirs := ["a"] |} ["a/Foo.kt"] ["a/Foo.kt"; "a/Foo.kt"]).
  - intros p. simpl. rewrite !elem_of_cons, !elem_of_nil. tauto.
  - intros p. rewrite !elem_of_cons, !elem_of_nil. tauto.
Defined.

(** * Further properties of the [pants_requirements] generator *)

Lemma pretty_N_char_digit x : is_digit (pretty_N_char x) = true.
Proof. unfold pretty_N_char. by repeat case_match. Qed.

Lemma pretty_N_go_digits x s :
  all_digits s = true → all_digits (pretty_N_go x s) = true.
Proof.
  revert s. induction (N.lt_wf_0 x) as [x _ IH]; intros s Hs.
  assert (x = 0 ∨ 0 < x)%N as [->|?] by lia; [by rewrite pretty_N_go_0|].
  rewrite pretty_N_go_step by done. apply IH; [by apply N.div_lt|].
  simpl. by rewrite pretty_N_char_digit.
Qed.

Lemma pretty_N_digits (x : N) : all_digits (pretty x) = true.
Proof.
  unfold pretty, pretty_N. case_decide; [done|]. by apply pretty_N_go_digits.
Qed.

(** A run of digits is delimited by the first character that is no digit. *)
Lemma digits_prefix_inj (a a' : string) c c' (r r' : string) :
  all_digits a = true → all_digits a' = true →
  is_digit c = false → is_digit c' = false →
  a +:+ String c r = a' +:+ String c' r' → a = a' ∧ r = r'.
Proof.
  revert a'. induction a as [|x a IH]; intros [|x' a'] Ha Ha' Hc Hc';
    rewrite ?append_cons; simpl in *.
  - by intros [= _ ->].
  - intros [= -> _]. apply andb_true_iff in Ha' as [? _]. congruence.
  - intros [= -> _]. apply andb_true_iff in Ha as [? _]. congruence.
  - apply andb_true_iff in Ha as [_ Ha]. apply andb_true_iff in Ha' as [_ Ha'].
    intros [= -> H]. destruct (IH a' Ha Ha' Hc Hc' H) as [-> ->]. done.
Qed.

(** X8.  Two releases that are not dev releases get the same requirement
    exactly when they belong to the same release series, that is when their
    major and minor numbers agree; pre-release, post-release and micro
    numbers play no part. *)
Theorem same_series_same_requirement (v1 v2 : Version) :
  is_devrelease v1 = false → is_devrelease v2 = false →
  determine_version v1 = determine_version v2 ↔
  major v1 = major v2 ∧ minor v1 = minor v2.
Proof.
  intros H1 H2. unfold determine_version. rewrite H1, H2. split.
  - intros H.
    change (String ">" (String "=" (pretty (major v1) +:+ String "." (
              pretty (minor v1) +:+ String "." ("0a0," +:+ "<" +:+
              pretty (major v1) +:+ "." +:+ pretty (minor v1 + 1)%N)))) =
            String ">" (String "=" (pretty (major v2) +:+ String "." (
              pretty (minor v2) +:+ String "." ("0a0," +:+ "<" +:+
              pretty (major v2) +:+ "." +:+ pretty (minor v2 + 1)%N))))) in H.
    injection H as H.
    apply digits_prefix_inj in H as [Hmaj H]; [|apply pretty_N_digits..|done|done].
    apply digits_prefix_inj in H as [Hmin _]; [|apply pretty_N_digits..|done|done].
    split; by apply (inj pretty).
  - by intros [-> ->].
Qed.

Lemma same_series_same_requirement_witness :
  determine_version
    {| epoch := 0; release := [2; 15; 0]%N; pre := Some ("rc", 1%N);
       post := None; dev := None; local := None |} =
  determine_version
    {| epoch := 0; release := [2; 15; 3]%N; pre := None;
       post := None; dev := None; local := None |}.
Proof.
  apply (same_series_same_requirement
           {| epoch := 0; release := [2; 15; 0]%N; pre := Some ("rc", 1%N);
              post := None; dev := None; local := None |}
           {| epoch := 0; release := [2; 15; 3]%N; pre := None;
              post := None; dev := None; local := None |});
    [reflexivity|reflexivity|by split].
Defined.

(** X9.  A dev release and a release that is no dev release never get the
    same requirement, and two dev releases get the same requirement only when
    they print the same. *)
Theorem dev_pin_is_exact (v1 v2 : Version) :
  is_devrelease v1 = true →
  determine_version v1 = determine_version v2 →
  is_devrelease v2 = true ∧ Version_str v1 = Version_str v2.
Proof.
  intros H1. unfold determine_version. rewrite H1.
  destruct (is_devrelease v2).
  - intros H. split; [done|]. by apply (inj (String.append "==")) in H.
  - intros H. by apply (f_equal (String.get 0)) in H.
Qed.

Lemma dev_pin_is_exact_witness :
  is_devrelease sample_version = true ∧
  Version_str sample_version = Version_str sample_version.
Proof.
  apply (dev_pin_is_exact sample_version sample_version); reflexivity.
Defined.

Lemma elem_of_generated v ra ma request um t :
  t ∈ generated (generate_from_pants_requirements v ra ma request um) →
  t = create_tgt ra ma request um (determine_version v)
        "pantsbuild.pants" "pants" ∨
  t = create_tgt ra ma request um (determine_version v)
        "pantsbuild.pants.testutil" "pants.testutil".
Proof.
  unfold generate_from_pants_requirements. simpl.
  destruct (PantsRequirementsTestutilField (generator request)); simpl.
  - rewrite !elem_of_cons, elem_of_nil. tauto.
  - rewrite !elem_of_cons, elem_of_nil. tauto.
Qed.

(** X10.  Every entry of the request's template is carried, unchanged, into
    every generated target: the template wins over the two entries the rule
    writes itself. *)
Theorem template_carried v ra ma request um k x :
  template request !! k = Some x →
  Forall (λ t, unhydrated_values t !! k = Some x)
         (generated (generate_from_pants_requirements v ra ma request um)).
Proof.
  intros Hk. apply Forall_forall. intros t [-> | ->]%elem_of_generated;
    simpl; by apply lookup_union_Some_l.
Qed.

Lemma template_carried_witness :
  Forall (λ t, unhydrated_values t !! "resolve" = Some (VStr "pants-plugins"))
         (generated (generate_from_pants_requirements sample_version
                       "requirements" "modules" sample_request
                       sample_union_membership)).
Proof.
  apply (template_carried sample_version "requirements" "modules"
           sample_request sample_union_membership "resolve").
  reflexivity.
Defined.

(** X11.  A generated target holds the template's fields, the requirements
    field and the modules field, and no other. *)
Theorem generated_fields v ra ma request um :
  Forall (λ t, dom (unhydrated_values t) = dom (template request) ∪ {[ra; ma]})
         (generated (generate_from_pants_requirements v ra ma request um)).
Proof.
  apply Forall_forall. intros t [-> | ->]%elem_of_generated; simpl;
    rewrite dom_union_L, !dom_insert_L, dom_empty_L, union_empty_r_L;
    f_equal; apply (comm_L (∪)).
Qed.

(** X12.  Unless the template holds a modules entry of its own, each
    generated target names the module of its distribution: [pants] for
    [pantsbuild.pants] and [pants.testutil] for
    [pantsbuild.pants.testutil]. *)
Theorem generated_modules v ra ma request um :
  template request !! ma = None →
  Forall (λ t, ∃ dist module,
            (dist, module) ∈ [("pantsbuild.pants", "pants");
                              ("pantsbuild.pants.testutil", "pants.testutil")] ∧
            address t = create_generated (template_address request) dist ∧
            unhydrated_values t !! ma = Some (VTuple [module]))
         (generated (generate_from_pants_requirements v ra ma request um)).
Proof.
  intros Htpl. apply Forall_forall. intros t [-> | ->]%elem_of_generated.
  - exists "pantsbuild.pants", "pants". split_and!; [by left|done|]. simpl.
    rewrite lookup_union_r by done. by rewrite lookup_insert_eq.
  - exists "pantsbuild.pants.testutil", "pants.testutil".
    split_and!; [right; by left|done|]. simpl.
    rewrite lookup_union_r by done. by rewrite lookup_insert_eq.
Qed.

Lemma generated_modules_witness :
  Forall (λ t, ∃ dist module,
            (dist, module) ∈ [("pantsbuild.pants", "pants");
                              ("pantsbuild.pants.testutil", "pants.testutil")] ∧
            address t = create_generated (template_address sample_request) dist ∧
            unhydrated_values t !! "modules" = Some (VTuple [module]))
         (generated (generate_from_pants_requirements sample_version
                       "requirements" "modules" sample_request
                       sample_union_membership)).
Proof.
  apply (generated_modules sample_version "requirements" "modules"
           sample_request sample_union_membership).
  reflexivity.
Defined.

(** * The mock formatters *)

Lemma stdout_inj {Address : Type} (str : Address → string)
    (cls cls' : fmt_test.MockLanguageFormatters) (a a' : Address) :
  fmt_test.stdout str cls a = fmt_test.stdout str cls' a' →
  cls = cls' ∧ str a = str a'.
Proof.
  destruct cls, cls'; simpl; intros H;
    try (by apply (f_equal (String.get 0)) in H).
  - by apply (inj (String.append _)) in H.
  - by apply (inj (String.append _)) in H.
  - apply (inj (String.append _)) in H. by apply append_inj_r in H.
Qed.

(** X13.  The message a mock formatter prints tells which formatter printed
    it and for which address: two messages are equal only for the same
    subclass and for addresses that print the same. *)
Theorem stdout_identifies {Address : Type} (str : Address → string)
    (cls cls' : fmt_test.MockLanguageFormatters) (a a' : Address) :
  fmt_test.stdout str cls a = fmt_test.stdout str cls' a' ↔
  cls = cls' ∧ str a = str a'.
Proof.
  split; [apply stdout_inj|].
  intros [-> H]. unfold fmt_test.stdout. by rewrite H.
Qed.

(** X14.  Two mock formatters report the same [language_fmt_results] exactly
    when both hold no adaptor, where both raise [IndexError], or when they are
    of the same subclass and their first adaptors have addresses that print
    the same; the adaptors after the first play no part. *)
Theorem language_fmt_results_eq {Address Origin Digest : Type}
    (str : Address → string) (EMPTY_DIRECTORY_DIGEST : Digest)
    (cls cls' : fmt_test.MockLanguageFormatters)
    (adaptors adaptors' : list (fmt_test.TargetAdaptorWithOrigin Address Origin)) :
  fmt_test.language_fmt_results str EMPTY_DIRECTORY_DIGEST cls adaptors =
  fmt_test.language_fmt_results str EMPTY_DIRECTORY_DIGEST cls' adaptors' ↔
  match head adaptors, head adaptors' with
  | None, None => True
  | Some first, Some first' =>
      cls = cls' ∧
      str (fmt_test.address (fmt_test.adaptor first)) =
      str (fmt_test.address (fmt_test.adaptor first'))
  | _, _ => False
  end.
Proof.
  destruct adaptors as [|first rest], adaptors' as [|first' rest']; simpl;
    [done|done|done|]. split.
  - intros [= H]. by apply stdout_inj in H.
  - intros [-> H]. unfold fmt_test.stdout. by rewrite H.
Qed.

(** * Scanning more files *)

(** X15.  Resolving more files never drops a proposal: when the resolved
    files grow, every declaration of the old scan has a declaration of the
    new scan for the same type and directory that lists all its triggers. *)
Theorem files_monotone F F' O t :
  (∀ p, p ∈ files F → p ∈ files F') →
  t ∈ putative_targets F O →
  ∃ t', t' ∈ putative_targets F' O ∧
        type_alias t' = type_alias t ∧ path t' = path t ∧
        ∀ f, f ∈ triggering_sources t → f ∈ triggering_sources t'.
Proof.
  intros Hsub Ht.
  assert (Hmono : ∀ p, p ∈ unowned_kotlin_files F O → p ∈ unowned_kotlin_files F' O).
  { intros p. rewrite !elem_of_unowned. intros [? HnO]. split; [auto|done]. }
  pose proof Ht as (d & fs & Hg & ->)%elem_of_putative_targets. simpl.
  pose proof Hg as [Hne Hfs]%group_by_dir_elem.
  apply set_choose_L in Hne as [f0 Hf0].
  apply Hfs in Hf0 as (p0 & Hp0%elem_of_elements%Hmono & Hs0).
  destruct (candidate_declared F' O p0 Hp0) as (fs' & Hg' & _ & Ht').
  rewrite Hs0 in Hg', Ht'. simpl in *.
  eexists. split_and!; [exact Ht'|done|done|]. simpl.
  intros f Hf%elem_of_sorted%elem_of_elements.
  apply elem_of_sorted, elem_of_elements.
  apply Hfs in Hf as (p & Hp%elem_of_elements%Hmono & Hs).
  apply group_by_dir_elem in Hg' as [_ Hfs']. apply Hfs'.
  exists p. split; [by apply elem_of_elements|done].
Qed.

Lemma files_monotone_witness :
  ∃ t', t' ∈ putative_targets scenario [] ∧
        type_alias t' = KotlinSourcesGeneratorTarget ∧ path t' = "a" ∧
        ∀ f, f ∈ ["Foo.kt"] → f ∈ triggering_sources t'.
Proof.
  apply (files_monotone {| files := ["a/Foo.kt"]; dirs := [] |} scenario []
           (for_target_type KotlinSourcesGeneratorTarget "a" None ["Foo.kt"])).
  - intros p [->|[]%elem_of_nil]%elem_of_cons. by left.
  - vm_compute. by left.
Defined.
